(** * Clementine transcode dialog: a shallow embedding of
    [src/transcoder/transcodedialog.cpp] and the properties of its
    destination history, job counters, progress bar and persisted settings.

    The dialog is a Qt widget controller.  Its state (the member variables
    and the widgets of [ui_]) is a record and every slot is a function from
    state to state.  What a slot reads from outside the dialog is an
    argument of the slot (the folder a file dialog returns, the progress map
    the engine reports) or a member of the platform the model is given (the
    file system, the translations).  The Qt classes the dialog drives are
    modelled from their documented behaviour, one module each. *)

From Stdlib Require Import ZArith List String Ascii Bool Lia Permutation Sorted.
From Stdlib Require Import DecimalString.
From stdpp Require Import base gmap strings list.
Import ListNotations.

Local Open Scope string_scope.
Local Open Scope Z_scope.

(** ** C++ [int]: 32 bits, two's complement *)

Module Int.

Definition INT_MAX : Z := 2147483647.
Definition INT_MIN : Z := -2147483648.

(** The value an [int] holds after an arithmetic result [z] is stored. *)
Definition wrap (z : Z) : Z := (z + 2147483648) mod 4294967296 - 2147483648.

Definition in_range (z : Z) : Prop := INT_MIN <= z <= INT_MAX.

Definition add (a b : Z) : Z := wrap (a + b).
Definition sub (a b : Z) : Z := wrap (a - b).
Definition mul (a b : Z) : Z := wrap (a * b).

(** [qBound(min, val, max)] is [qMax(min, qMin(max, val))]. *)
Definition qBound (lo val hi : Z) : Z := Z.max lo (Z.min hi val).

End Int.

(** The sum of a list of integers. *)
Definition list_sum_Z (l : list Z) : Z := List.fold_right Z.add 0 l.

(** ** Values stored in widgets *)

(** [TranscoderPreset] is declared in transcoder.h; the dialog reads these
    three members. *)
Record TranscoderPreset := mkPreset {
  name_ : string;
  extension_ : string;
  codec_mimetype_ : string
}.

(** A default-constructed preset, what [QVariant::value<TranscoderPreset>()]
    yields for a variant that holds none. *)
Definition default_preset : TranscoderPreset :=
  mkPreset EmptyString EmptyString EmptyString.

(** The [QVariant]s this dialog stores as item data: nothing (the null
    variant of an item created without data), a [QString], or a preset. *)
Inductive QVariant :=
| VNull
| VString (s : string)
| VPreset (p : TranscoderPreset).

Definition toString (v : QVariant) : string :=
  match v with VString s => s | _ => EmptyString end.

Definition toPreset (v : QVariant) : TranscoderPreset :=
  match v with VPreset p => p | _ => default_preset end.

Definition preset_eqb (p q : TranscoderPreset) : bool :=
  String.eqb (name_ p) (name_ q) && String.eqb (extension_ p) (extension_ q)
  && String.eqb (codec_mimetype_ p) (codec_mimetype_ q).

Definition variant_eqb (v w : QVariant) : bool :=
  match v, w with
  | VNull, VNull => true
  | VString s, VString t => String.eqb s t
  | VPreset p, VPreset q => preset_eqb p q
  | _, _ => false
  end.

(** ** QComboBox *)

Module QComboBox.

Record item := mkItem { text : string; data : QVariant }.

(** [currentIndex] is -1 when no item is current. *)
Record t := mk { items : list item; currentIndex : Z }.

Definition count (cb : t) : Z := Z.of_nat (length (items cb)).

Definition valid (cb : t) (i : Z) : bool := (0 <=? i) && (i <? count cb).

(** [itemData(index)]: the null variant when [index] is out of range. *)
Definition itemData (cb : t) (i : Z) : QVariant :=
  if valid cb i then
    match items cb !! Z.to_nat i with Some it => data it | None => VNull end
  else VNull.

(** [setCurrentIndex(index)]: an index out of range clears the selection. *)
Definition setCurrentIndex (i : Z) (cb : t) : t :=
  mk (items cb) (if valid cb i then i else -1).

(** [addItem(icon, text, userData)] appends; an empty box makes its first
    item current.  Icons are not modelled. *)
Definition addItem (txt : string) (d : QVariant) (cb : t) : t :=
  mk (items cb ++ [mkItem txt d])
     (match items cb with [] => 0 | _ => currentIndex cb end).

(** [removeItem(index)] does nothing when [index] is out of range.  Items
    after the removed one move up; when the current item itself goes, the
    item that takes its place (or the last one) becomes current. *)
Definition removeItem (i : Z) (cb : t) : t :=
  if valid cb i then
    let items' := delete (Z.to_nat i) (items cb) in
    let n' := Z.of_nat (length items') in
    let cur := currentIndex cb in
    mk items'
       (if cur <? i then cur
        else if i <? cur then cur - 1
        else if n' =? 0 then -1 else Z.min (n' - 1) i)
  else cb.

Fixpoint find_from (d : QVariant) (l : list item) (i : Z) : Z :=
  match l with
  | [] => -1
  | it :: l' => if variant_eqb (data it) d then i else find_from d l' (i + 1)
  end.

(** [findData(data)]: index of the first item holding [data], else -1. *)
Definition findData (d : QVariant) (cb : t) : Z := find_from d (items cb) 0.

End QComboBox.

(** ** QProgressBar *)

Module QProgressBar.

Record t := mk { minimum : Z; maximum : Z; value : Z }.

(** [reset()]: the bar shows no progress, one below the minimum. *)
Definition reset (pb : t) : t :=
  mk (minimum pb) (maximum pb)
     (if minimum pb =? Int.INT_MIN then Int.INT_MIN else minimum pb - 1).

(** [setValue(value)]: a value outside the range is ignored, unless the
    range is the undetermined one (0, 0). *)
Definition setValue (v : Z) (pb : t) : t :=
  if (value pb =? v)
     || (((v >? maximum pb) || (v <? minimum pb))
         && negb ((maximum pb =? 0) && (minimum pb =? 0)))
  then pb
  else mk (minimum pb) (maximum pb) v.

(** [setRange(minimum, maximum)]: a maximum below the minimum is raised
    to it, and a value that falls out of the new range is reset. *)
Definition setRange (lo hi : Z) (pb : t) : t :=
  if (lo =? minimum pb) && (hi =? maximum pb) then pb
  else
    let pb' := mk lo (Z.max lo hi) (value pb) in
    if (value pb <? lo - 1) || (value pb >? Z.max lo hi) then reset pb'
    else pb'.

(** [setMaximum(maximum)] lowers the minimum when it has to. *)
Definition setMaximum (hi : Z) (pb : t) : t :=
  setRange (Z.min (minimum pb) hi) hi pb.

End QProgressBar.

(** ** QBasicTimer *)

Module QBasicTimer.

(** [timerId] is 0 for a timer that is not running. *)
Record t := mk { timerId : Z; interval : Z }.

Definition inactive : t := mk 0 0.

Definition isActive (tm : t) : bool := negb (timerId tm =? 0).

(** [start(msec, obj)]: [fresh] is the identifier [obj->startTimer(msec)]
    hands out, never 0. *)
Definition start (msec : Z) (fresh : positive) (tm : t) : t :=
  mk (Z.pos fresh) msec.

Definition stop (tm : t) : t := mk 0 (interval tm).

End QBasicTimer.

(** ** QSettings: the persistent key-value store *)

Module QSettings.

(** Inside [beginGroup(group)] a key is stored as [group/key]. *)
Definition full_key (group key : string) : string :=
  String.append group (String.append "/" key).

Definition value (s : gmap string string) (group key default : string)
  : string :=
  match s !! full_key group key with
  | Some v => v
  | None => default
  end.

Definition setValue (group key v : string) (s : gmap string string)
  : gmap string string :=
  <[full_key group key := v]> s.

End QSettings.

(** ** QString helpers *)

Module QString.

Definition slash : ascii := "/"%char.
Definition dot : ascii := "."%char.

(** The fields of a string between occurrences of [sep]; never empty. *)
Fixpoint split (sep : ascii) (s : string) : list string :=
  match s with
  | EmptyString => [EmptyString]
  | String c s' =>
      if Ascii.eqb c sep then EmptyString :: split sep s'
      else match split sep s' with
           | [] => [String c EmptyString]
           | f :: fs => String c f :: fs
           end
  end.

(** [QStringList::join(sep)]. *)
Fixpoint join (sep : string) (l : list string) : string :=
  match l with
  | [] => EmptyString
  | [x] => x
  | x :: l' => String.append x (String.append sep (join sep l'))
  end.

(** [section('/', -1, -1)]: the last field. *)
Definition section_last (sep : ascii) (s : string) : string :=
  List.last (split sep s) EmptyString.

(** [section('/', 0, -2)]: every field but the last, separators kept. *)
Definition section_but_last (sep : ascii) (s : string) : string :=
  join (String sep EmptyString) (List.removelast (split sep s)).

End QString.

(** ** QFileInfo and QUrl *)

Module QFileInfo.

(** A [QFileInfo] is built from a file path and answers questions on its
    text; only [isDir] looks at the file system. *)
Record t := mk { filePath : string }.

Definition has_slash (s : string) : bool :=
  negb (length (QString.split QString.slash s) =? 1)%nat.

(** [fileName()]: what follows the last slash. *)
Definition fileName (f : t) : string :=
  QString.section_last QString.slash (filePath f).

(** [path()]: what precedes the last slash; "." when the path has no
    slash and "/" when its only slash is the leading one. *)
Definition path (f : t) : string :=
  if has_slash (filePath f) then
    match QString.section_but_last QString.slash (filePath f) with
    | EmptyString => "/"
    | p => p
    end
  else ".".

(** [completeBaseName()]: the file name up to its last dot, the whole
    file name when it has no dot. *)
Definition completeBaseName (f : t) : string :=
  let name := fileName f in
  match QString.split QString.dot name with
  | [_] => name
  | fields => QString.join "." (List.removelast fields)
  end.

End QFileInfo.

(** [QUrl::fromLocalFile(path)]. *)
Inductive QUrl := fromLocalFile (localFile : string).

(** ** What the dialog depends on but does not define *)

(** The engine reports progress as C++ [float]s, user-visible text goes
    through the translation catalogue, output folders are probed on the file
    system and the presets are ordered by [std::sort].  None of these is
    fixed by the dialog's code, so the model takes them as given. *)
Record Platform := mkPlatform {
  (** the type of the progress values in [QMap<QUrl, float>] *)
  float : Type;
  (** the C++ expression [int(value * 100)] *)
  percent : float -> Z;
  (** [tr(text, disambiguation, n)]: the translation of [text] in the
      plural form for [n] *)
  tr_n : string -> Z -> string;
  (** [QFileInfo(path).isDir()] *)
  isDir : string -> bool;
  (** [std::sort(first, last, comp)] on a list of presets *)
  std_sort : (TranscoderPreset -> TranscoderPreset -> bool) ->
             list TranscoderPreset -> list TranscoderPreset
}.

(** What [std::sort] guarantees for the list [l]: the result holds the same
    elements and no element is ordered before its predecessor. *)
Definition sorts (P : Platform)
    (comp : TranscoderPreset -> TranscoderPreset -> bool)
    (l : list TranscoderPreset) : Prop :=
  Permutation (std_sort P comp l) l /\
  Sorted (fun a b => comp b a = false) (std_sort P comp l).

(** ** The dialog *)

(** A row of the file list: the two visible columns and the full file name
    kept under [Qt::UserRole]. *)
Record file_item := mkFile {
  file_name : string;
  file_path : string;
  user_data : string
}.

(** The calls the dialog forwards to its [Transcoder]. *)
Inductive engine_call :=
| AddJob (input : QUrl) (preset : TranscoderPreset) (output : string)
| EngineStart
| EngineCancel
| DumpGraph (id : Z).

(** The widgets [SetWorking] shows, hides, enables and disables. *)
Record working_widgets := mkWorking {
  start_button_visible : bool;
  cancel_button_visible : bool;
  close_button_visible : bool;
  input_group_enabled : bool;
  output_group_enabled : bool;
  progress_group_visible : bool
}.

(** What [setupUi] builds from the form transcodedialog.ui, which is not
    among the sources: the widgets that come with content. *)
Record Form := mkForm {
  form_format : QComboBox.t;
  form_destination : QComboBox.t;
  form_progress_bar : QProgressBar.t
}.

Record Dialog := mkDialog {
  files : list file_item;
  format : QComboBox.t;
  destination : QComboBox.t;
  progress_bar : QProgressBar.t;
  progress_text : string;
  log : list string;
  widgets : working_widgets;
  progress_timer_ : QBasicTimer.t;
  (** the identifier the next [startTimer] will return *)
  next_timer_id : positive;
  (** the calls made on [transcoder_] so far, oldest first *)
  transcoder_ : list engine_call;
  queued_ : Z;
  finished_success_ : Z;
  finished_failed_ : Z;
  last_add_dir_ : string;
  last_import_dir_ : string;
  (** the application's [QSettings] *)
  settings : gmap string string
}.

Definition kSettingsGroup : string := "Transcoder".
Definition kProgressInterval : Z := 500.
Definition kMaxDestinationItems : Z := 10.

Definition ComparePresetsByName (left right : TranscoderPreset) : bool :=
  String.ltb (name_ left) (name_ right).

(** Field updates. *)
Definition with_files (v : list file_item) (d : Dialog) : Dialog :=
  mkDialog v (format d) (destination d) (progress_bar d) (progress_text d)
    (log d) (widgets d) (progress_timer_ d) (next_timer_id d) (transcoder_ d)
    (queued_ d) (finished_success_ d) (finished_failed_ d) (last_add_dir_ d)
    (last_import_dir_ d) (settings d).

Definition with_destination (v : QComboBox.t) (d : Dialog) : Dialog :=
  mkDialog (files d) (format d) v (progress_bar d) (progress_text d)
    (log d) (widgets d) (progress_timer_ d) (next_timer_id d) (transcoder_ d)
    (queued_ d) (finished_success_ d) (finished_failed_ d) (last_add_dir_ d)
    (last_import_dir_ d) (settings d).

Definition with_progress_bar (v : QProgressBar.t) (d : Dialog) : Dialog :=
  mkDialog (files d) (format d) (destination d) v (progress_text d)
    (log d) (widgets d) (progress_timer_ d) (next_timer_id d) (transcoder_ d)
    (queued_ d) (finished_success_ d) (finished_failed_ d) (last_add_dir_ d)
    (last_import_dir_ d) (settings d).

Definition with_progress_text (v : string) (d : Dialog) : Dialog :=
  mkDialog (files d) (format d) (destination d) (progress_bar d) v
    (log d) (widgets d) (progress_timer_ d) (next_timer_id d) (transcoder_ d)
    (queued_ d) (finished_success_ d) (finished_failed_ d) (last_add_dir_ d)
    (last_import_dir_ d) (settings d).

Definition with_log (v : list string) (d : Dialog) : Dialog :=
  mkDialog (files d) (format d) (destination d) (progress_bar d)
    (progress_text d) v (widgets d) (progress_timer_ d) (next_timer_id d)
    (transcoder_ d) (queued_ d) (finished_success_ d) (finished_failed_ d)
    (last_add_dir_ d) (last_import_dir_ d) (settings d).

Definition with_timer (w : working_widgets) (tm : QBasicTimer.t)
    (next : positive) (d : Dialog) : Dialog :=
  mkDialog (files d) (format d) (destination d) (progress_bar d)
    (progress_text d) (log d) w tm next (transcoder_ d)
    (queued_ d) (finished_success_ d) (finished_failed_ d) (last_add_dir_ d)
    (last_import_dir_ d) (settings d).

Definition with_transcoder (v : list engine_call) (d : Dialog) : Dialog :=
  mkDialog (files d) (format d) (destination d) (progress_bar d)
    (progress_text d) (log d) (widgets d) (progress_timer_ d)
    (next_timer_id d) v (queued_ d) (finished_success_ d)
    (finished_failed_ d) (last_add_dir_ d) (last_import_dir_ d) (settings d).

Definition with_counters (q s f : Z) (d : Dialog) : Dialog :=
  mkDialog (files d) (format d) (destination d) (progress_bar d)
    (progress_text d) (log d) (widgets d) (progress_timer_ d)
    (next_timer_id d) (transcoder_ d) q s f (last_add_dir_ d)
    (last_import_dir_ d) (settings d).

Definition with_last_add_dir (v : string) (d : Dialog) : Dialog :=
  mkDialog (files d) (format d) (destination d) (progress_bar d)
    (progress_text d) (log d) (widgets d) (progress_timer_ d)
    (next_timer_id d) (transcoder_ d) (queued_ d) (finished_success_ d)
    (finished_failed_ d) v (last_import_dir_ d) (settings d).

Definition with_last_import_dir (v : string) (d : Dialog) : Dialog :=
  mkDialog (files d) (format d) (destination d) (progress_bar d)
    (progress_text d) (log d) (widgets d) (progress_timer_ d)
    (next_timer_id d) (transcoder_ d) (queued_ d) (finished_success_ d)
    (finished_failed_ d) (last_add_dir_ d) v (settings d).

Definition with_settings (v : gmap string string) (d : Dialog) : Dialog :=
  mkDialog (files d) (format d) (destination d) (progress_bar d)
    (progress_text d) (log d) (widgets d) (progress_timer_ d)
    (next_timer_id d) (transcoder_ d) (queued_ d) (finished_success_ d)
    (finished_failed_ d) (last_add_dir_ d) (last_import_dir_ d) v.

(** ** The slots *)

Section Slots.

Context (P : Platform).

(** [SetWorking(working)]. *)
Definition SetWorking (working : bool) (d : Dialog) : Dialog :=
  let w := mkWorking (negb working) working (negb working)
             (negb working) (negb working) true in
  if working then
    with_timer w
      (QBasicTimer.start kProgressInterval (next_timer_id d)
         (progress_timer_ d))
      (Pos.succ (next_timer_id d)) d
  else
    with_timer w (QBasicTimer.stop (progress_timer_ d)) (next_timer_id d) d.

(** [GetOutputFileName(input, preset)]. *)
Definition GetOutputFileName (d : Dialog) (input : QFileInfo.t)
    (preset : TranscoderPreset) : string :=
  let path :=
    QFileInfo.mk
      (toString
         (QComboBox.itemData (destination d)
            (QComboBox.currentIndex (destination d)))) in
  let output_path :=
    if isDir P (QFileInfo.filePath path) then QFileInfo.filePath path
    else QFileInfo.path input in
  String.append output_path
    (String.append "/"
       (String.append (QFileInfo.completeBaseName input)
          (String.append "." (extension_ preset)))).

(** The quotation mark inside the status markup. *)
Definition dquote : string := String "034"%char EmptyString.

Definition font (color body : string) : string :=
  String.append "<font color="
    (String.append dquote
       (String.append color
          (String.append dquote
             (String.append ">" (String.append body "</font>"))))).

(** The sections [UpdateStatusText] joins: one per counter that is not
    zero. *)
Definition status_sections (q s f : Z) : list string :=
  (if q =? 0 then [] else [font "#3467c8" (tr_n P "%n remaining" q)])
  ++ (if s =? 0 then [] else [font "#02b600" (tr_n P "%n finished" s)])
  ++ (if f =? 0 then [] else [font "#b60000" (tr_n P "%n failed" f)]).

(** [UpdateStatusText()]. *)
Definition UpdateStatusText (d : Dialog) : Dialog :=
  with_progress_text
    (QString.join ", "
       (status_sections (queued_ d) (finished_success_ d)
          (finished_failed_ d)))
    d.

(** The loop of [UpdateProgress] over the values of the progress map. *)
Fixpoint add_progress (progress : Z) (values : list (float P)) : Z :=
  match values with
  | [] => progress
  | value :: rest =>
      add_progress
        (Int.add progress (Int.qBound 0 (percent P value) 99)) rest
  end.

(** [UpdateProgress()]; [current_jobs] is what
    [transcoder_->GetProgress()] returns at the call. *)
Definition UpdateProgress (current_jobs : list (QUrl * float P))
    (d : Dialog) : Dialog :=
  let progress :=
    Int.mul (Int.add (finished_success_ d) (finished_failed_ d)) 100 in
  with_progress_bar
    (QProgressBar.setValue
       (add_progress progress (List.map snd current_jobs))
       (progress_bar d))
    d.

(** [file_model->index(i, 0).data(Qt::UserRole).toString()]. *)
Definition row_data (d : Dialog) (i : Z) : string :=
  if (0 <=? i) && (i <? Z.of_nat (length (files d))) then
    match files d !! Z.to_nat i with
    | Some f => user_data f
    | None => EmptyString
    end
  else EmptyString.

(** The loop of [Start] that hands the rows [i], [i+1], ... to the
    engine; [todo] is the number of rows left, [count - i]. *)
Fixpoint submit_rows (d : Dialog) (preset : TranscoderPreset)
    (todo : nat) (i : Z) (calls : list engine_call) : list engine_call :=
  match todo with
  | O => calls
  | S todo' =>
      let input_fileinfo := QFileInfo.mk (row_data d i) in
      let output_filename := GetOutputFileName d input_fileinfo preset in
      submit_rows d preset todo' (i + 1)
        (calls ++ [AddJob (fromLocalFile (QFileInfo.filePath input_fileinfo))
                     preset output_filename])
  end.

(** [Start()]. *)
Definition Start (d : Dialog) : Dialog :=
  let count := Z.of_nat (length (files d)) in
  if count =? 0 then d
  else
    let d1 := SetWorking true d in
    let preset :=
      toPreset
        (QComboBox.itemData (format d1)
           (QComboBox.currentIndex (format d1))) in
    let d2 :=
      with_transcoder
        (submit_rows d1 preset (Z.to_nat count) 0 (transcoder_ d1)) d1 in
    let d3 :=
      with_progress_bar
        (QProgressBar.setMaximum (Int.mul count 100)
           (QProgressBar.setValue 0 (progress_bar d2)))
        d2 in
    let d4 := UpdateStatusText (with_counters count 0 0 d3) in
    let d5 := with_transcoder (transcoder_ d4 ++ [EngineStart]) d4 in
    with_settings
      (QSettings.setValue kSettingsGroup "last_output_format"
         (codec_mimetype_ preset) (settings d5))
      d5.

(** [Cancel()]. *)
Definition Cancel (d : Dialog) : Dialog :=
  SetWorking false (with_transcoder (transcoder_ d ++ [EngineCancel]) d).

(** [PipelineDumpAction(checked)]; [ids] are the selected pipelines. *)
Definition PipelineDumpAction (ids : list Z) (d : Dialog) : Dialog :=
  with_transcoder (transcoder_ d ++ List.map DumpGraph ids) d.

(** [JobComplete(input, output, success)]. *)
Definition JobComplete (input : QUrl) (output : string) (success : bool)
    (current_jobs : list (QUrl * float P)) (d : Dialog) : Dialog :=
  let s := if success then Int.add (finished_success_ d) 1
           else finished_success_ d in
  let f := if success then finished_failed_ d
           else Int.add (finished_failed_ d) 1 in
  let q := Int.sub (queued_ d) 1 in
  UpdateProgress current_jobs (UpdateStatusText (with_counters q s f d)).

(** [AllJobsComplete()]. *)
Definition AllJobsComplete (d : Dialog) : Dialog := SetWorking false d.

(** [SetFilenames(filenames)]: one row per file name. *)
Definition SetFilenames (filenames : list string) (d : Dialog) : Dialog :=
  with_files
    (files d ++
     List.map
       (fun filename =>
          mkFile (QString.section_last QString.slash filename)
            (QString.section_but_last QString.slash filename) filename)
       filenames)
    d.

(** [Add()]; [filenames] is what the file dialog returns, empty when the
    user cancels it. *)
Definition Add (filenames : list string) (d : Dialog) : Dialog :=
  match filenames with
  | [] => d
  | first :: _ =>
      let d1 := with_last_add_dir first (SetFilenames filenames d) in
      with_settings
        (QSettings.setValue kSettingsGroup "last_add_dir"
           (last_add_dir_ d1) (settings d1))
        d1
  end.

(** [Import()]; [path] is the folder the dialog returns, empty when the
    user cancels it, and [found] the audio files the directory iterator
    yields below [path]. *)
Definition Import (path : string) (found : list string) (d : Dialog)
  : Dialog :=
  match path with
  | EmptyString => d
  | _ =>
      let d1 := with_last_import_dir path (SetFilenames found d) in
      with_settings
        (QSettings.setValue kSettingsGroup "last_import_dir"
           (last_import_dir_ d1) (settings d1))
        d1
  end.

Fixpoint remove_rows (selected : list nat) (i : nat) (l : list file_item)
  : list file_item :=
  match l with
  | [] => []
  | f :: l' =>
      if existsb (Nat.eqb i) selected then remove_rows selected (S i) l'
      else f :: remove_rows selected (S i) l'
  end.

(** [Remove()]; [selected] are the rows of the selected items. *)
Definition Remove (selected : list nat) (d : Dialog) : Dialog :=
  with_files (remove_rows selected 0%nat (files d)) d.

(** [LogLine(message)]; [date] is the current date and time as text. *)
Definition LogLine (date message : string) (d : Dialog) : Dialog :=
  with_log (log d ++ [String.append date (String.append ": " message)]) d.

(** [timerEvent(e)]; [id] is [e->timerId()]. *)
Definition timerEvent (id : Z) (current_jobs : list (QUrl * float P))
    (d : Dialog) : Dialog :=
  if id =? QBasicTimer.timerId (progress_timer_ d) then
    UpdateProgress current_jobs d
  else d.

(** [Options()] runs the modal options dialog of the current preset, which
    leaves this dialog as it is. *)
Definition Options (d : Dialog) : Dialog := d.

(** The loop at the head of [AddDestination]; every pass that removes an
    item shortens the box, so [fuel] passes suffice when [fuel] is the
    number of items. *)
Fixpoint remove_oldest (fuel : nat) (cb : QComboBox.t) : QComboBox.t :=
  match fuel with
  | O => cb
  | S fuel' =>
      if QComboBox.count cb >=? kMaxDestinationItems then
        remove_oldest fuel' (QComboBox.removeItem 1 cb)
      else cb
  end.

(** [AddDestination()] on the destination box; [dir] is the folder the
    dialog returns, empty when the user cancels it. *)
Definition add_destination (dir : string) (cb : QComboBox.t)
  : QComboBox.t :=
  match dir with
  | EmptyString => cb
  | _ =>
      let cb1 := remove_oldest (length (QComboBox.items cb)) cb in
      let data := VString dir in
      let duplicate_index := QComboBox.findData data cb1 in
      if duplicate_index =? -1 then
        let cb2 := QComboBox.addItem dir data cb1 in
        QComboBox.setCurrentIndex (QComboBox.count cb2 - 1) cb2
      else QComboBox.setCurrentIndex duplicate_index cb1
  end.

Definition AddDestination (dir : string) (d : Dialog) : Dialog :=
  with_destination (add_destination dir (destination d)) d.

(** The text of a format item, [QString("%1 (.%2)").arg(name, extension)]. *)
Definition format_label (preset : TranscoderPreset) : string :=
  String.append (name_ preset)
    (String.append " (." (String.append (extension_ preset) ")")).

(** The first loop of the constructor: one format item per preset. *)
Fixpoint add_presets (presets : list TranscoderPreset) (cb : QComboBox.t)
  : QComboBox.t :=
  match presets with
  | [] => cb
  | preset :: rest =>
      add_presets rest
        (QComboBox.addItem (format_label preset) (VPreset preset) cb)
  end.

(** The second loop of the constructor, at index [i] with [todo] items
    left to look at. *)
Fixpoint select_format (last_output_format : string) (todo : nat) (i : Z)
    (cb : QComboBox.t) : QComboBox.t :=
  match todo with
  | O => cb
  | S todo' =>
      if String.eqb last_output_format
           (codec_mimetype_ (toPreset (QComboBox.itemData cb i)))
      then QComboBox.setCurrentIndex i cb
      else select_format last_output_format todo' (i + 1) cb
  end.

(** The constructor.  [form] is what [setupUi] builds, [all_presets] what
    [Transcoder::GetAllPresets()] returns, [stored] the settings on disk
    and [home] is [QDir::homePath()]. *)
Definition TranscodeDialog (form : Form)
    (all_presets : list TranscoderPreset) (stored : gmap string string)
    (home : string) : Dialog :=
  let presets := std_sort P ComparePresetsByName all_presets in
  let format1 := add_presets presets (form_format form) in
  let last_output_format :=
    QSettings.value stored kSettingsGroup "last_output_format"
      "audio/x-vorbis" in
  let format2 :=
    select_format last_output_format
      (length (QComboBox.items format1)) 0 format1 in
  mkDialog [] format2 (form_destination form) (form_progress_bar form)
    EmptyString []
    (mkWorking true false true true true false)
    QBasicTimer.inactive 1%positive []
    0 0 0
    (QSettings.value stored kSettingsGroup "last_add_dir" home)
    (QSettings.value stored kSettingsGroup "last_import_dir" home)
    stored.

(** ** Events *)

(** What can reach the dialog: the clicks its constructor connects to
    slots, the three signals of the engine, and timer events. *)
Inductive event :=
| AddClicked (filenames : list string)
| ImportClicked (path : string) (found : list string)
| RemoveClicked (selected : list nat)
| StartClicked
| CancelClicked
| OptionsClicked
| SelectClicked (dir : string)
| DumpGraphTriggered (ids : list Z)
| EngineJobComplete (input : QUrl) (output : string) (success : bool)
    (current_jobs : list (QUrl * float P))
| EngineLogLine (date message : string)
| EngineAllJobsComplete
| TimerEvent (id : Z) (current_jobs : list (QUrl * float P)).

Definition handle (e : event) (d : Dialog) : Dialog :=
  match e with
  | AddClicked filenames => Add filenames d
  | ImportClicked path found => Import path found d
  | RemoveClicked selected => Remove selected d
  | StartClicked => Start d
  | CancelClicked => Cancel d
  | OptionsClicked => Options d
  | SelectClicked dir => AddDestination dir d
  | DumpGraphTriggered ids => PipelineDumpAction ids d
  | EngineJobComplete input output success current_jobs =>
      JobComplete input output success current_jobs d
  | EngineLogLine date message => LogLine date message d
  | EngineAllJobsComplete => AllJobsComplete d
  | TimerEvent id current_jobs => timerEvent id current_jobs d
  end.

(** The dialog after a sequence of events, oldest first. *)
Definition run (events : list event) (d : Dialog) : Dialog :=
  List.fold_left (fun d e => handle e d) events d.

End Slots.

Arguments EngineJobComplete {P}.
Arguments TimerEvent {P}.

Arguments AddClicked {P}.
Arguments ImportClicked {P}.
Arguments RemoveClicked {P}.
Arguments StartClicked {P}.
Arguments CancelClicked {P}.
Arguments OptionsClicked {P}.
Arguments SelectClicked {P}.
Arguments DumpGraphTriggered {P}.
Arguments EngineLogLine {P}.
Arguments EngineAllJobsComplete {P}.

(** ** A concrete platform *)

(** An executable instance, used to run the model on examples: progress
    values are exact rationals in thousandths, text is left untranslated
    with [%n] replaced by the number, two folders exist, and presets are
    sorted by insertion. *)
Module Sample.

(** [int(value * 100)] for a value of [thousandths / 1000], truncated
    towards zero as the conversion to [int] does. *)
Definition percent (thousandths : Z) : Z := Z.quot (thousandths * 100) 1000.

Definition decimal (n : Z) : string :=
  DecimalString.NilZero.string_of_int (Z.to_int n).

Fixpoint replace_n (number : string) (s : string) : string :=
  match s with
  | String "%"%char (String "n"%char rest) =>
      String.append number (replace_n number rest)
  | String c rest => String c (replace_n number rest)
  | EmptyString => EmptyString
  end.

Definition tr_n (source : string) (n : Z) : string :=
  replace_n (decimal n) source.

Definition isDir (path : string) : bool :=
  String.eqb path "/music/out" || String.eqb path "/tmp".

Fixpoint insert (comp : TranscoderPreset -> TranscoderPreset -> bool)
    (x : TranscoderPreset) (l : list TranscoderPreset)
  : list TranscoderPreset :=
  match l with
  | [] => [x]
  | y :: l' => if comp x y then x :: y :: l' else y :: insert comp x l'
  end.

Fixpoint insertion_sort
    (comp : TranscoderPreset -> TranscoderPreset -> bool)
    (l : list TranscoderPreset) : list TranscoderPreset :=
  match l with
  | [] => []
  | x :: l' => insert comp x (insertion_sort comp l')
  end.

Definition platform : Platform :=
  mkPlatform Z percent tr_n isDir insertion_sort.

Definition flac : TranscoderPreset := mkPreset "Flac" "flac" "audio/x-flac".
Definition mp3 : TranscoderPreset := mkPreset "MP3" "mp3" "audio/mpeg".
Definition vorbis : TranscoderPreset :=
  mkPreset "Ogg Vorbis" "ogg" "audio/x-vorbis".
Definition opus : TranscoderPreset :=
  mkPreset "Ogg Opus" "opus" "audio/x-opus".

Definition presets : list TranscoderPreset := [vorbis; mp3; opus; flac].

(** A form whose destination box offers one entry without data, to write
    next to the input files, and whose progress bar is a fresh one. *)
Definition form : Form :=
  mkForm (QComboBox.mk [] (-1))
    (QComboBox.mk [QComboBox.mkItem "Alongside the originals" VNull] 0)
    (QProgressBar.mk 0 100 (-1)).

Definition fresh : Dialog := TranscodeDialog platform form presets ∅ "/home/u".

Definition two_files : list string := ["/home/u/a.wav"; "/home/u/b.c.wav"].

Definition loaded : Dialog := Add two_files fresh.

Definition running : Dialog := Start platform loaded.

(** What the engine reports while the second file is half done. *)
Definition busy : list (QUrl * Z) :=
  [(fromLocalFile "/home/u/b.c.wav", 500)].

(** A run of the two files: a timer tick, the first job succeeds, a log
    line, the second job fails. *)
Definition notifications : list (event platform) :=
  [TimerEvent (P:=platform) 1 busy;
   EngineJobComplete (P:=platform) (fromLocalFile "/home/u/a.wav")
     "/home/u/a.ogg" true busy;
   EngineLogLine "Sat Oct 30" "b.c.wav: no decoder";
   EngineJobComplete (P:=platform) (fromLocalFile "/home/u/b.c.wav")
     "/home/u/b.c.ogg" false []].

Definition nine_folders : list string :=
  ["/m/1"; "/m/2"; "/m/3"; "/m/4"; "/m/5"; "/m/6"; "/m/7"; "/m/8"; "/m/9"].

End Sample.

(** ** The destination history: what is stated about it *)

(** The folder an entry of the destination box carries, if any. *)
Definition folder_of (it : QComboBox.item) : option string :=
  match QComboBox.data it with
  | VString s => Some s
  | _ => None
  end.

(** The folder paths of the entries of a box, in order. *)
Definition folders (cb : QComboBox.t) : list string :=
  omap folder_of (QComboBox.items cb).

(** The box after a sequence of [AddDestination] actions, one per folder
    the user chooses. *)
Definition add_destinations (dirs : list string) (d : Dialog) : Dialog :=
  List.fold_left (fun d dir => AddDestination dir d) dirs d.

(** A box within the cap and without a repeated folder. *)
Definition history_ok (cb : QComboBox.t) : Prop :=
  QComboBox.count cb <= kMaxDestinationItems /\ NoDup (folders cb).

(** The dialog whose destination box is full: the entry of the form and
    nine folders, "/m/1" the oldest of them at index 1. *)
Definition full_history : Dialog :=
  add_destinations Sample.nine_folders Sample.fresh.

(** ** The run: what is stated about it *)

(** The preset the format chooser has selected. *)
Definition selected_preset (d : Dialog) : TranscoderPreset :=
  toPreset
    (QComboBox.itemData (format d) (QComboBox.currentIndex (format d))).

(** The number of rows of the file list, [file_model->rowCount()]. *)
Definition row_count (d : Dialog) : Z := Z.of_nat (length (files d)).

Definition is_start {P : Platform} (e : event P) : bool :=
  match e with StartClicked => true | _ => false end.

Definition is_job_complete {P : Platform} (e : event P) : bool :=
  match e with EngineJobComplete _ _ _ _ => true | _ => false end.

(** How many [JobComplete] notifications a sequence of events holds. *)
Definition completions {P : Platform} (events : list (event P)) : Z :=
  Z.of_nat (length (List.filter is_job_complete events)).

(** The job the dialog submits for one row of the file list. *)
Definition job_of (P : Platform) (d : Dialog) (f : file_item) : engine_call :=
  AddJob (fromLocalFile (user_data f)) (selected_preset d)
    (GetOutputFileName P d (QFileInfo.mk (user_data f)) (selected_preset d)).

(** The three counters hold values [++] and [--] do not overflow on. *)
Definition counters_fit (d : Dialog) : Prop :=
  Int.INT_MIN < queued_ d <= Int.INT_MAX /\
  Int.INT_MIN <= finished_success_ d < Int.INT_MAX /\
  Int.INT_MIN <= finished_failed_ d < Int.INT_MAX.

(** The key a setting of the dialog is stored under. *)
Definition setting (key : string) : string :=
  QSettings.full_key kSettingsGroup key.

(** The reading of "every Start persists the selected preset's codec
    identifier as last_output_format". *)
Definition persists_output_format (P : Platform) (d : Dialog) : Prop :=
  settings (handle P StartClicked d) !! setting "last_output_format"
  = Some (codec_mimetype_ (selected_preset d)).

(** The reading of "progress is never updated through any other path" than
    the timer: what a [JobComplete] notification does to the progress bar
    does not depend on the progress the engine reports. *)
Definition polls_on_timer_only (P : Platform) : Prop :=
  forall input output success (report1 report2 : list (QUrl * float P)) d,
    progress_bar
      (handle P (EngineJobComplete input output success report1) d)
    = progress_bar
        (handle P (EngineJobComplete input output success report2) d).

(** The events whose slots write the progress bar. *)
Definition touches_progress_bar {P : Platform} (e : event P) (d : Dialog)
  : bool :=
  match e with
  | TimerEvent id _ => id =? QBasicTimer.timerId (progress_timer_ d)
  | EngineJobComplete _ _ _ _ => true
  | StartClicked => true
  | _ => false
  end.

(** The output file name for a given output folder. *)
Definition file_in (folder : string) (input : QFileInfo.t)
    (preset : TranscoderPreset) : string :=
  String.append folder
    (String.append "/"
       (String.append (QFileInfo.completeBaseName input)
          (String.append "." (extension_ preset)))).

(** The item the constructor adds to the format chooser for a preset. *)
Definition format_item (preset : TranscoderPreset) : QComboBox.item :=
  QComboBox.mkItem (format_label preset) (VPreset preset).

(** The format the constructor looks for: the stored one, or Ogg Vorbis. *)
Definition last_output_format (stored : gmap string string) : string :=
  QSettings.value stored kSettingsGroup "last_output_format" "audio/x-vorbis".

(** ** Further vocabulary *)

(** Whether the character [c] occurs in [s]. *)
Fixpoint contains (c : ascii) (s : string) : bool :=
  match s with
  | EmptyString => false
  | String c' s' => Ascii.eqb c' c || contains c s'
  end.

(** The calls that put work on the engine: a job, or the start of the
    run. *)
Definition is_submission (c : engine_call) : bool :=
  match c with
  | AddJob _ _ _ => true
  | EngineStart => true
  | _ => false
  end.

(** The widgets agree with the timer: the cancel button shows exactly while
    the progress timer runs, and the start button, the close button and the
    two groups of inputs are available exactly while it does not. *)
Definition working_consistent (d : Dialog) : Prop :=
  cancel_button_visible (widgets d)
  = QBasicTimer.isActive (progress_timer_ d) /\
  start_button_visible (widgets d)
  = negb (QBasicTimer.isActive (progress_timer_ d)) /\
  close_button_visible (widgets d)
  = negb (QBasicTimer.isActive (progress_timer_ d)) /\
  input_group_enabled (widgets d)
  = negb (QBasicTimer.isActive (progress_timer_ d)) /\
  output_group_enabled (widgets d)
  = negb (QBasicTimer.isActive (progress_timer_ d)).

(** The rows in [selected] that exist in a list of [n] rows. *)
Definition selected_rows (selected : list nat) (n : nat) : list nat :=
  List.filter (fun i => existsb (Nat.eqb i) selected) (seq 0 n).

(** A progress bar with the range [lo]..[hi] that shows a value in it. *)
Definition bar_within (lo hi : Z) (pb : QProgressBar.t) : Prop :=
  QProgressBar.minimum pb = lo /\ QProgressBar.maximum pb = hi /\
  lo <= QProgressBar.value pb <= hi.

(** ** Facts about the widgets *)

Lemma variant_eqb_VString v s :
  variant_eqb v (VString s) = true <-> v = VString s.
Proof.
  destruct v as [|t|p]; simpl; split; try discriminate.
  - intros H. apply String.eqb_eq in H. now subst.
  - intros [= ->]. apply String.eqb_refl.
Qed.

Lemma find_from_range d l i j :
  QComboBox.find_from d l i = j -> j <> -1 -> 0 <= i ->
  i <= j < i + Z.of_nat (length l).
Proof.
  revert i. induction l as [|it l IH]; simpl; intros i Hj Hne Hi.
  - congruence.
  - destruct (variant_eqb (QComboBox.data it) d).
    + lia.
    + specialize (IH (i + 1) Hj Hne). lia.
Qed.

Lemma find_from_found d l i j :
  QComboBox.find_from d l i = j -> j <> -1 -> 0 <= i ->
  exists it, l !! Z.to_nat (j - i) = Some it /\
             variant_eqb (QComboBox.data it) d = true.
Proof.
  revert i. induction l as [|it l IH]; simpl; intros i Hj Hne Hi.
  - congruence.
  - destruct (variant_eqb (QComboBox.data it) d) eqn:E.
    + subst j. replace (i - i) with 0 by lia. exists it. auto.
    + pose proof (find_from_range _ _ _ _ Hj Hne ltac:(lia)) as Hr.
      destruct (IH (i + 1) Hj Hne ltac:(lia)) as (it' & Hl & He).
      exists it'. split; [|exact He].
      replace (Z.to_nat (j - i)) with (S (Z.to_nat (j - (i + 1)))) by lia.
      exact Hl.
Qed.

Lemma find_from_missing s l i :
  QComboBox.find_from (VString s) l i = -1 -> 0 <= i ->
  s ∉ omap folder_of l.
Proof.
  revert i. induction l as [|it l IH]; simpl; intros i Hj Hi.
  - apply not_elem_of_nil.
  - destruct (variant_eqb (QComboBox.data it) (VString s)) eqn:E; [lia|].
    specialize (IH (i + 1) Hj ltac:(lia)).
    unfold folder_of at 1. destruct (QComboBox.data it) as [|t|p] eqn:D;
      simpl; auto.
    rewrite not_elem_of_cons. split; [|exact IH].
    intros ->. simpl in E. rewrite String.eqb_refl in E. discriminate.
Qed.

Lemma find_from_present s l i :
  s ∈ omap folder_of l -> QComboBox.find_from (VString s) l i <> -1 \/ i < 0.
Proof.
  revert i. induction l as [|it l IH]; simpl; intros i Hin.
  - apply elem_of_nil in Hin. contradiction.
  - destruct (variant_eqb (QComboBox.data it) (VString s)) eqn:E.
    + destruct (Z_lt_dec i 0); [right; lia | left; lia].
    + assert (Hin' : s ∈ omap folder_of l).
      { unfold folder_of at 1 in Hin.
        destruct (QComboBox.data it) as [|t|p] eqn:D; simpl in Hin; auto.
        apply elem_of_cons in Hin as [->|Hin]; auto.
        simpl in E. rewrite String.eqb_refl in E. discriminate. }
      destruct (IH (i + 1) Hin'); [left; auto | right; lia].
Qed.

Lemma folders_delete_NoDup (l : list QComboBox.item) i :
  NoDup (omap folder_of l) -> NoDup (omap folder_of (delete i l)).
Proof.
  intros H. eapply sublist_NoDup; [exact H|]. clear H.
  revert i. induction l as [|it l IH]; intros [|i]; simpl.
  - constructor.
  - constructor.
  - destruct (folder_of it); [apply sublist_cons|]; reflexivity.
  - destruct (folder_of it); [apply sublist_skip|]; apply IH.
Qed.

Lemma removeItem_items i cb :
  QComboBox.valid cb i = true ->
  QComboBox.items (QComboBox.removeItem i cb)
  = delete (Z.to_nat i) (QComboBox.items cb).
Proof. intros H. unfold QComboBox.removeItem. now rewrite H. Qed.

Lemma removeItem_count i cb :
  QComboBox.valid cb i = true ->
  QComboBox.count (QComboBox.removeItem i cb) = QComboBox.count cb - 1.
Proof.
  intros H. unfold QComboBox.count. rewrite removeItem_items by exact H.
  unfold QComboBox.valid, QComboBox.count in H.
  apply andb_true_iff in H as [H0 H1].
  apply Z.leb_le in H0. apply Z.ltb_lt in H1.
  rewrite length_delete.
  - lia.
  - apply lookup_lt_is_Some. lia.
Qed.

Lemma full_box_has_oldest cb :
  (QComboBox.count cb >=? kMaxDestinationItems) = true ->
  QComboBox.valid cb 1 = true.
Proof.
  unfold kMaxDestinationItems, QComboBox.valid. intros H.
  apply Z.geb_le in H. apply andb_true_iff. split.
  - reflexivity.
  - apply Z.ltb_lt. lia.
Qed.

(** The loop stops below the cap: the fuel it is given is enough. *)
Lemma remove_oldest_count fuel cb :
  (length (QComboBox.items cb) <= fuel)%nat ->
  QComboBox.count (remove_oldest fuel cb) < kMaxDestinationItems.
Proof.
  revert cb. induction fuel as [|fuel IH]; intros cb Hlen; simpl.
  - unfold QComboBox.count, kMaxDestinationItems. lia.
  - destruct (QComboBox.count cb >=? kMaxDestinationItems) eqn:E.
    + apply IH. pose proof (removeItem_count 1 cb (full_box_has_oldest cb E)).
      unfold QComboBox.count in *. lia.
    + rewrite Z.geb_leb in E. apply Z.leb_gt in E. exact E.
Qed.

Lemma remove_oldest_NoDup fuel cb :
  NoDup (folders cb) -> NoDup (folders (remove_oldest fuel cb)).
Proof.
  revert cb. induction fuel as [|fuel IH]; intros cb H; simpl; auto.
  destruct (QComboBox.count cb >=? kMaxDestinationItems) eqn:E; auto.
  apply IH. unfold folders.
  rewrite removeItem_items by now apply full_box_has_oldest.
  now apply folders_delete_NoDup.
Qed.

Lemma remove_oldest_below fuel cb :
  QComboBox.count cb < kMaxDestinationItems -> remove_oldest fuel cb = cb.
Proof.
  intros H. destruct fuel; simpl; auto.
  destruct (QComboBox.count cb >=? kMaxDestinationItems) eqn:E; auto.
  apply Z.geb_le in E. lia.
Qed.

Lemma remove_oldest_at_cap cb :
  QComboBox.count cb = kMaxDestinationItems ->
  remove_oldest (length (QComboBox.items cb)) cb = QComboBox.removeItem 1 cb.
Proof.
  intros H. assert (E : (QComboBox.count cb >=? kMaxDestinationItems) = true).
  { apply Z.geb_le. lia. }
  destruct (length (QComboBox.items cb)) eqn:L.
  - unfold QComboBox.count, kMaxDestinationItems in H. lia.
  - simpl. rewrite E. apply remove_oldest_below.
    rewrite removeItem_count by now apply full_box_has_oldest. lia.
Qed.

Lemma folders_addItem dir cb :
  folders (QComboBox.addItem dir (VString dir) cb) = (folders cb ++ [dir])%list.
Proof. unfold folders. simpl. now rewrite omap_app. Qed.

Lemma count_addItem txt v cb :
  QComboBox.count (QComboBox.addItem txt v cb) = QComboBox.count cb + 1.
Proof. unfold QComboBox.count. simpl. rewrite length_app. simpl. lia. Qed.

Lemma add_destination_empty cb : add_destination EmptyString cb = cb.
Proof. reflexivity. Qed.

(** What [AddDestination] does with a folder the user did choose. *)
Lemma add_destination_chosen dir cb :
  dir <> EmptyString ->
  add_destination dir cb =
  let cb1 := remove_oldest (length (QComboBox.items cb)) cb in
  if QComboBox.findData (VString dir) cb1 =? -1 then
    QComboBox.setCurrentIndex
      (QComboBox.count (QComboBox.addItem dir (VString dir) cb1) - 1)
      (QComboBox.addItem dir (VString dir) cb1)
  else QComboBox.setCurrentIndex (QComboBox.findData (VString dir) cb1) cb1.
Proof. destruct dir; [congruence | reflexivity]. Qed.

Lemma add_destination_history_ok dir cb :
  history_ok cb -> history_ok (add_destination dir cb).
Proof.
  intros [Hc Hn]. destruct (string_dec dir EmptyString) as [->|Hd]; [easy|].
  rewrite add_destination_chosen by exact Hd. cbv zeta.
  set (cb1 := remove_oldest _ cb).
  assert (H1 : QComboBox.count cb1 < kMaxDestinationItems)
    by now apply remove_oldest_count.
  assert (N1 : NoDup (folders cb1)) by now apply remove_oldest_NoDup.
  destruct (QComboBox.findData (VString dir) cb1 =? -1) eqn:E.
  - apply Z.eqb_eq in E. split.
    + change (QComboBox.count (QComboBox.addItem dir (VString dir) cb1)
              <= kMaxDestinationItems).
      rewrite count_addItem. lia.
    + change (NoDup (folders (QComboBox.addItem dir (VString dir) cb1))).
      rewrite folders_addItem. apply NoDup_app. split; [exact N1|].
      split; [|apply NoDup_singleton].
      intros x Hx Hin. apply list_elem_of_singleton in Hin. subst x.
      revert Hx. apply (find_from_missing dir _ 0); [exact E | lia].
  - split.
    + change (QComboBox.count cb1 <= kMaxDestinationItems). lia.
    + exact N1.
Qed.

Lemma add_destinations_history_ok dirs d :
  history_ok (destination d) ->
  history_ok (destination (add_destinations dirs d)).
Proof.
  revert d. induction dirs as [|dir dirs IH]; intros d H; simpl; auto.
  apply IH. destruct d; simpl in *. now apply add_destination_history_ok.
Qed.

Lemma find_from_shift d l i k :
  0 <= i -> 0 <= i + k ->
  QComboBox.find_from d l (i + k)
  = if QComboBox.find_from d l i =? -1 then -1
    else QComboBox.find_from d l i + k.
Proof.
  revert i. induction l as [|it l IH]; simpl; intros i Hi Hk; auto.
  destruct (variant_eqb (QComboBox.data it) d).
  - destruct (i =? -1) eqn:E; [apply Z.eqb_eq in E; lia | reflexivity].
  - replace (i + k + 1) with (i + 1 + k) by lia. apply IH; lia.
Qed.

Lemma find_from_absent s l i :
  s ∉ omap folder_of l -> QComboBox.find_from (VString s) l i = -1.
Proof.
  revert i. induction l as [|it l IH]; simpl; intros i Hn; auto.
  destruct (variant_eqb (QComboBox.data it) (VString s)) eqn:E.
  - apply variant_eqb_VString in E. exfalso. apply Hn.
    unfold folder_of at 1. rewrite E. apply elem_of_cons. now left.
  - apply IH. intros Hin. apply Hn. unfold folder_of at 1.
    destruct (QComboBox.data it); simpl; auto. apply elem_of_cons. now right.
Qed.

Lemma setCurrentIndex_valid i cb :
  QComboBox.valid cb i = true ->
  QComboBox.setCurrentIndex i cb = QComboBox.mk (QComboBox.items cb) i.
Proof. intros H. unfold QComboBox.setCurrentIndex. now rewrite H. Qed.

Lemma findData_valid d cb i :
  QComboBox.findData d cb = i -> i <> -1 -> QComboBox.valid cb i = true.
Proof.
  intros H Hne. pose proof (find_from_range _ _ _ _ H Hne ltac:(lia)).
  unfold QComboBox.valid, QComboBox.count. apply andb_true_iff.
  split; [apply Z.leb_le | apply Z.ltb_lt]; lia.
Qed.

Lemma findData_itemData s cb i :
  QComboBox.findData (VString s) cb = i -> i <> -1 ->
  QComboBox.itemData cb i = VString s.
Proof.
  intros H Hne. unfold QComboBox.itemData.
  rewrite (findData_valid _ _ _ H Hne).
  destruct (find_from_found _ _ _ _ H Hne ltac:(lia)) as (it & Hl & He).
  rewrite Z.sub_0_r in Hl. rewrite Hl. now apply variant_eqb_VString.
Qed.

(** Below the cap a folder that is present is selected where it is. *)
Lemma add_destination_present_below dir cb i :
  dir <> EmptyString -> QComboBox.count cb < kMaxDestinationItems ->
  QComboBox.findData (VString dir) cb = i -> i <> -1 ->
  add_destination dir cb = QComboBox.mk (QComboBox.items cb) i.
Proof.
  intros Hd Hc Hi Hne. rewrite add_destination_chosen by exact Hd. cbv zeta.
  rewrite remove_oldest_below by exact Hc. rewrite Hi.
  destruct (i =? -1) eqn:E; [apply Z.eqb_eq in E; contradiction|].
  apply setCurrentIndex_valid. now apply (findData_valid (VString dir)).
Qed.

(** At the cap the entry at index 1 goes first; a folder found elsewhere is
    selected at the index it has afterwards. *)
Lemma add_destination_present_at_cap dir cb i :
  dir <> EmptyString -> QComboBox.count cb = kMaxDestinationItems ->
  QComboBox.findData (VString dir) cb = i -> i <> -1 -> i <> 1 ->
  add_destination dir cb
  = QComboBox.mk (delete 1%nat (QComboBox.items cb))
      (if i =? 0 then 0 else i - 1).
Proof.
  intros Hd Hc Hi Hne H1. rewrite add_destination_chosen by exact Hd. cbv zeta.
  rewrite remove_oldest_at_cap by exact Hc.
  assert (V : QComboBox.valid cb 1 = true).
  { apply full_box_has_oldest. apply Z.geb_le. lia. }
  assert (F : QComboBox.findData (VString dir) (QComboBox.removeItem 1 cb)
              = if i =? 0 then 0 else i - 1).
  { unfold QComboBox.findData in *. rewrite removeItem_items by exact V.
    destruct (QComboBox.items cb) as [|a [|b rest]] eqn:L;
      try (unfold QComboBox.count, kMaxDestinationItems in Hc;
           rewrite L in Hc; simpl in Hc; lia).
    change (Z.to_nat 1) with 1%nat. simpl. simpl in Hi.
    destruct (variant_eqb (QComboBox.data a) (VString dir)).
    - now subst i.
    - destruct (variant_eqb (QComboBox.data b) (VString dir)); [lia|].
      change (0 + 1 + 1) with (1 + 1) in Hi.
      rewrite (find_from_shift _ _ 1 1) in Hi by lia.
      destruct (QComboBox.find_from (VString dir) rest 1 =? -1) eqn:E;
        [lia|].
      change (0 + 1) with 1. apply Z.eqb_neq in E.
      pose proof (find_from_range _ _ _ _ eq_refl E ltac:(lia)).
      destruct (i =? 0) eqn:E0; [apply Z.eqb_eq in E0|]; lia. }
  rewrite F.
  assert (Hne' : (if i =? 0 then 0 else i - 1) <> -1).
  { pose proof (find_from_range _ _ _ _ Hi Hne ltac:(lia)).
    destruct (i =? 0) eqn:E0; [|apply Z.eqb_neq in E0]; lia. }
  destruct ((if i =? 0 then 0 else i - 1) =? -1) eqn:E;
    [apply Z.eqb_eq in E; contradiction|].
  rewrite setCurrentIndex_valid
    by (apply (findData_valid (VString dir)); [exact F | exact Hne']).
  now rewrite removeItem_items by exact V.
Qed.

(** At the cap a chosen folder that is the entry at index 1 is removed with
    it and comes back as the last entry. *)
Lemma add_destination_oldest_at_cap dir cb :
  dir <> EmptyString -> QComboBox.count cb = kMaxDestinationItems ->
  NoDup (folders cb) -> QComboBox.findData (VString dir) cb = 1 ->
  add_destination dir cb
  = QComboBox.mk
      (delete 1%nat (QComboBox.items cb)
       ++ [QComboBox.mkItem dir (VString dir)])
      (kMaxDestinationItems - 1).
Proof.
  intros Hd Hc Hn Hi. rewrite add_destination_chosen by exact Hd. cbv zeta.
  rewrite remove_oldest_at_cap by exact Hc.
  assert (V : QComboBox.valid cb 1 = true).
  { apply full_box_has_oldest. apply Z.geb_le. lia. }
  assert (F : QComboBox.findData (VString dir) (QComboBox.removeItem 1 cb)
              = -1).
  { unfold QComboBox.findData in *. rewrite removeItem_items by exact V.
    unfold folders in Hn.
    destruct (QComboBox.items cb) as [|a [|b rest]] eqn:L;
      try (unfold QComboBox.count, kMaxDestinationItems in Hc;
           rewrite L in Hc; simpl in Hc; lia).
    change (Z.to_nat 1) with 1%nat. simpl. simpl in Hi.
    destruct (variant_eqb (QComboBox.data a) (VString dir)) eqn:Ea; [lia|].
    destruct (variant_eqb (QComboBox.data b) (VString dir)) eqn:Eb.
    - apply find_from_absent. apply variant_eqb_VString in Eb.
      assert (Hb : folder_of b = Some dir) by (unfold folder_of; now rewrite Eb).
      simpl in Hn. rewrite Hb in Hn.
      destruct (folder_of a); simpl in Hn.
      + apply NoDup_cons in Hn as [_ Hn]. now apply NoDup_cons in Hn as [Hn _].
      + now apply NoDup_cons in Hn as [Hn _].
    - change (0 + 1 + 1) with (1 + 1) in Hi.
      rewrite (find_from_shift _ _ 1 1) in Hi by lia.
      destruct (QComboBox.find_from (VString dir) rest 1 =? -1) eqn:E;
        [lia|].
      apply Z.eqb_neq in E.
      pose proof (find_from_range _ _ _ _ eq_refl E ltac:(lia)). lia. }
  rewrite F. change (-1 =? -1) with true. cbv iota.
  rewrite count_addItem, removeItem_count by exact V.
  rewrite setCurrentIndex_valid.
  - f_equal.
    + simpl. now rewrite removeItem_items by exact V.
    + rewrite Hc. lia.
  - unfold QComboBox.valid. rewrite count_addItem, removeItem_count by exact V.
    unfold kMaxDestinationItems in Hc.
    apply andb_true_iff. split; [apply Z.leb_le | apply Z.ltb_lt]; lia.
Qed.

Lemma add_destination_current dir cb :
  dir <> EmptyString ->
  QComboBox.itemData (add_destination dir cb)
    (QComboBox.currentIndex (add_destination dir cb)) = VString dir.
Proof.
  intros Hd. rewrite add_destination_chosen by exact Hd. cbv zeta.
  set (cb1 := remove_oldest _ cb).
  destruct (QComboBox.findData (VString dir) cb1 =? -1) eqn:E.
  - set (cb2 := QComboBox.addItem dir (VString dir) cb1).
    assert (V : QComboBox.valid cb2 (QComboBox.count cb2 - 1) = true).
    { unfold QComboBox.valid, cb2. rewrite count_addItem.
      unfold QComboBox.count. apply andb_true_iff.
      split; [apply Z.leb_le | apply Z.ltb_lt]; lia. }
    rewrite setCurrentIndex_valid by exact V.
    unfold QComboBox.itemData. cbn [QComboBox.currentIndex].
    change (QComboBox.valid
              {| QComboBox.items := QComboBox.items cb2;
                 QComboBox.currentIndex := QComboBox.count cb2 - 1 |}
              (QComboBox.count cb2 - 1))
      with (QComboBox.valid cb2 (QComboBox.count cb2 - 1)).
    rewrite V. cbn [QComboBox.items]. unfold cb2 at 1 2. rewrite count_addItem.
    cbn [QComboBox.addItem QComboBox.items].
    replace (Z.to_nat (QComboBox.count cb1 + 1 - 1))
      with (length (QComboBox.items cb1) + 0)%nat
      by (unfold QComboBox.count; lia).
    now rewrite lookup_app_r, Nat.add_comm, Nat.add_sub by lia.
  - apply Z.eqb_neq in E.
    rewrite setCurrentIndex_valid
      by now apply (findData_valid (VString dir)).
    cbn [QComboBox.currentIndex].
    now apply (findData_itemData dir cb1).
Qed.

Lemma folders_delete_subset (l : list QComboBox.item) i s :
  s ∈ omap folder_of (delete i l) -> s ∈ omap folder_of l.
Proof.
  revert i. induction l as [|it l IH]; intros [|i]; simpl; auto.
  - intros H. destruct (folder_of it); [apply elem_of_cons; now right | exact H].
  - destruct (folder_of it).
    + intros H. apply elem_of_cons in H as [->|H];
        apply elem_of_cons; [now left | right; eauto].
    + eauto.
Qed.

Lemma itemData_in_folders cb i s :
  QComboBox.itemData cb i = VString s -> s ∈ folders cb.
Proof.
  unfold QComboBox.itemData, folders.
  destruct (QComboBox.valid cb i); [|discriminate].
  destruct (QComboBox.items cb !! Z.to_nat i) as [it|] eqn:L; [|discriminate].
  intros D. apply list_elem_of_omap. exists it. split.
  - apply list_elem_of_lookup. eauto.
  - unfold folder_of. now rewrite D.
Qed.

(** What choosing a folder that is in the box leaves behind, in each of
    the three ways [AddDestination] can go. *)
Lemma add_destination_present_adds_nothing dir cb i :
  dir <> EmptyString -> history_ok cb ->
  QComboBox.findData (VString dir) cb = i -> i <> -1 ->
  (forall f, f ∈ folders (add_destination dir cb) -> f ∈ folders cb) /\
  QComboBox.count (add_destination dir cb) <= QComboBox.count cb.
Proof.
  intros Hd [Hc Hn] Hi Hne.
  assert (Hin : dir ∈ folders cb).
  { apply (itemData_in_folders cb i). now apply findData_itemData. }
  destruct (Z_lt_dec (QComboBox.count cb) kMaxDestinationItems) as [Hlt|Hge].
  - rewrite (add_destination_present_below dir cb i Hd Hlt Hi Hne).
    split; [auto | unfold QComboBox.count; simpl; lia].
  - assert (Hcap : QComboBox.count cb = kMaxDestinationItems) by lia.
    assert (Hlen : (length (delete 1%nat (QComboBox.items cb))
                    < length (QComboBox.items cb))%nat).
    { rewrite length_delete.
      - unfold QComboBox.count, kMaxDestinationItems in Hcap. lia.
      - apply lookup_lt_is_Some.
        unfold QComboBox.count, kMaxDestinationItems in Hcap. lia. }
    destruct (Z.eq_dec i 1) as [->|H1].
    + rewrite (add_destination_oldest_at_cap dir cb Hd Hcap Hn Hi). split.
      * intros f Hf. unfold folders in Hf. simpl in Hf.
        rewrite omap_app in Hf. apply elem_of_app in Hf as [Hf|Hf].
        -- now apply folders_delete_subset in Hf.
        -- simpl in Hf. apply list_elem_of_singleton in Hf. now subst f.
      * unfold QComboBox.count. simpl. rewrite length_app. simpl. lia.
    + rewrite (add_destination_present_at_cap dir cb i Hd Hcap Hi Hne H1).
      split.
      * intros f Hf. now apply folders_delete_subset in Hf.
      * unfold QComboBox.count. simpl. lia.
Qed.

(** ** The destination history *)

(** C1.  Whatever folders the user chooses in a row, the destination box
    never holds more than [kMaxDestinationItems] = 10 entries and never two
    entries with the same folder path.  When the chosen folder is already
    present, no duplicate is added: afterwards the box holds no folder it
    did not hold before and no more entries than before, the chosen folder
    is in it once, and the entry that carries it is the selected one.
    Below the cap the entries stay as they are and the entry found is
    selected where it is; at the cap the entry at index 1 has been removed
    before the lookup, and a folder found at another index is selected at
    the index it then has. *)
Theorem destination_history_bounded_distinct
    (dirs : list string) (d : Dialog) :
  history_ok (destination d) ->
  let cb := destination (add_destinations dirs d) in
  QComboBox.count cb <= kMaxDestinationItems /\
  NoDup (folders cb) /\
  forall (dir : string) (i : Z),
    dir <> EmptyString ->
    QComboBox.findData (VString dir) cb = i -> i <> -1 ->
    let cb' := destination (AddDestination dir (add_destinations dirs d)) in
    QComboBox.itemData cb' (QComboBox.currentIndex cb') = VString dir /\
    dir ∈ folders cb' /\
    NoDup (folders cb') /\
    (forall f, f ∈ folders cb' -> f ∈ folders cb) /\
    QComboBox.count cb' <= QComboBox.count cb /\
    (QComboBox.count cb < kMaxDestinationItems ->
     cb' = QComboBox.mk (QComboBox.items cb) i) /\
    (QComboBox.count cb = kMaxDestinationItems -> i <> 1 ->
     cb' = QComboBox.mk (delete 1%nat (QComboBox.items cb))
             (if i =? 0 then 0 else i - 1)).
Proof.
  intros Hok cb.
  pose proof (add_destinations_history_ok dirs d Hok) as Hcb.
  fold cb in Hcb. destruct Hcb as [Hc Hn].
  split; [exact Hc|]. split; [exact Hn|].
  intros dir i Hd Hi Hne cb'.
  assert (E : cb' = add_destination dir cb).
  { unfold cb', cb. now destruct (add_destinations dirs d). }
  rewrite E.
  pose proof (add_destination_current dir cb Hd) as Hcur.
  destruct (add_destination_history_ok dir cb (conj Hc Hn)) as [_ Hn'].
  destruct (add_destination_present_adds_nothing dir cb i Hd (conj Hc Hn)
              Hi Hne) as [Hsub Hcount].
  split; [exact Hcur|].
  split; [now apply (itemData_in_folders _ _ _ Hcur)|].
  split; [exact Hn'|]. split; [exact Hsub|]. split; [exact Hcount|].
  split.
  - intros Hlt. now apply add_destination_present_below.
  - intros Hcap H1. now apply add_destination_present_at_cap.
Qed.

Lemma destination_history_witness :
  history_ok (destination Sample.fresh) /\
  (let cb := destination (add_destinations Sample.nine_folders Sample.fresh) in
   let cb' :=
     destination
       (AddDestination "/m/1"
          (add_destinations Sample.nine_folders Sample.fresh)) in
   QComboBox.count cb <= kMaxDestinationItems /\
   NoDup (folders cb) /\
   QComboBox.itemData cb' (QComboBox.currentIndex cb') = VString "/m/1" /\
   NoDup (folders cb') /\
   QComboBox.count cb' <= QComboBox.count cb) /\
  destination
    (AddDestination "/m/1" (add_destinations ["/m/1"; "/m/2"] Sample.fresh))
  = QComboBox.mk
      (QComboBox.items
         (destination (add_destinations ["/m/1"; "/m/2"] Sample.fresh)))
      1.
Proof.
  assert (H : history_ok (destination Sample.fresh)).
  { split; [vm_compute; discriminate | apply NoDup_nil_2]. }
  split; [exact H|]. split.
  - destruct (destination_history_bounded_distinct Sample.nine_folders
                Sample.fresh H) as (Hc & Hn & Hsel).
    cbv zeta. split; [exact Hc|]. split; [exact Hn|].
    destruct (Hsel "/m/1" 1) as (A & _ & B & _ & C & _).
    + discriminate.
    + reflexivity.
    + discriminate.
    + split; [exact A|]. split; [exact B | exact C].
  - destruct (destination_history_bounded_distinct ["/m/1"; "/m/2"]
                Sample.fresh H) as (_ & _ & Hsel).
    destruct (Hsel "/m/1" 1) as (_ & _ & _ & _ & _ & Hbelow & _).
    + discriminate.
    + reflexivity.
    + discriminate.
    + apply Hbelow. reflexivity.
Defined.

(** ** Facts about the counters *)

Lemma wrap_in_range z : Int.in_range z -> Int.wrap z = z.
Proof.
  unfold Int.in_range, Int.INT_MIN, Int.INT_MAX, Int.wrap. intros H.
  rewrite Z.mod_small; lia.
Qed.

(** Only [Start] and [JobComplete] write the counters. *)
Lemma handle_keeps_counters (P : Platform) (e : event P) (d : Dialog) :
  is_start e = false -> is_job_complete e = false ->
  queued_ (handle P e d) = queued_ d /\
  finished_success_ (handle P e d) = finished_success_ d /\
  finished_failed_ (handle P e d) = finished_failed_ d.
Proof.
  destruct e; simpl; try discriminate; intros _ _; auto.
  - destruct filenames; auto.
  - destruct path; auto.
  - unfold timerEvent. destruct (_ =? _); auto.
Qed.

Lemma JobComplete_counters (P : Platform) input output success jobs d :
  queued_ (JobComplete P input output success jobs d)
  = Int.sub (queued_ d) 1 /\
  finished_success_ (JobComplete P input output success jobs d)
  = (if success then Int.add (finished_success_ d) 1
     else finished_success_ d) /\
  finished_failed_ (JobComplete P input output success jobs d)
  = (if success then finished_failed_ d
     else Int.add (finished_failed_ d) 1).
Proof. auto. Qed.

(** Within a run of [n] jobs the counters stay non-negative and add up to
    [n] as long as no more notifications arrive than jobs are queued. *)
Lemma run_keeps_sum (P : Platform) (n : Z) (events : list (event P)) :
  forall d,
    n <= Int.INT_MAX ->
    forallb (fun e => negb (is_start e)) events = true ->
    completions events <= queued_ d ->
    0 <= finished_success_ d -> 0 <= finished_failed_ d ->
    queued_ d + finished_success_ d + finished_failed_ d = n ->
    let d' := run P events d in
    queued_ d' = queued_ d - completions events /\
    0 <= finished_success_ d' /\ 0 <= finished_failed_ d' /\
    queued_ d' + finished_success_ d' + finished_failed_ d' = n.
Proof.
  induction events as [|e events IH]; intros d Hn Hs Hc H1 H2 Hsum.
  - unfold completions. simpl. repeat split; auto; lia.
  - simpl in Hs. apply andb_true_iff in Hs as [Hse Hs].
    apply negb_true_iff in Hse.
    unfold completions in *. simpl in Hc. simpl List.filter.
    change (run P (e :: events) d) with (run P events (handle P e d)).
    destruct (is_job_complete e) eqn:Ej.
    + destruct e; try discriminate. simpl handle.
      destruct (JobComplete_counters P input output success current_jobs d)
        as (Eq & Es & Ef).
      simpl length in *.
      assert (Rq : Int.sub (queued_ d) 1 = queued_ d - 1).
      { apply wrap_in_range. unfold Int.in_range, Int.INT_MIN, Int.INT_MAX in *.
        lia. }
      assert (Rs : Int.add (finished_success_ d) 1 = finished_success_ d + 1).
      { apply wrap_in_range. unfold Int.in_range, Int.INT_MIN, Int.INT_MAX in *.
        lia. }
      assert (Rf : Int.add (finished_failed_ d) 1 = finished_failed_ d + 1).
      { apply wrap_in_range. unfold Int.in_range, Int.INT_MIN, Int.INT_MAX in *.
        lia. }
      rewrite Rq in Eq. rewrite Rs in Es. rewrite Rf in Ef.
      specialize (IH (JobComplete P input output success current_jobs d) Hn Hs).
      cbv zeta in IH. rewrite Eq, Es, Ef in IH.
      destruct success; (destruct IH as (A & B & C & D); [lia..|]);
        repeat split; auto; lia.
    + destruct (handle_keeps_counters P e d Hse Ej) as (Eq & Es & Ef).
      specialize (IH (handle P e d) Hn Hs). cbv zeta in IH.
      rewrite Eq, Es, Ef in IH. apply IH; auto.
Qed.

Lemma Start_counters (P : Platform) (d : Dialog) :
  files d <> [] ->
  queued_ (Start P d) = row_count d /\
  finished_success_ (Start P d) = 0 /\ finished_failed_ (Start P d) = 0.
Proof.
  intros Hf. unfold Start, row_count.
  destruct (Z.of_nat (length (files d)) =? 0) eqn:E.
  - apply Z.eqb_eq in E. destruct (files d); [congruence | simpl in E; lia].
  - auto.
Qed.

(** ** The counters of a run *)

(** C2.  A run that [Start] begins with [n] files in the list (a list that
    is not empty, as [Start] does nothing on an empty one, and of a length
    an [int] can hold) has [queued_] = [n] and both finished counters 0; and
    after any events of that run up to the next [Start], of which at most
    [n] are [JobComplete] notifications, the three counters are not negative
    and add up to [n]. *)
Theorem counters_sum_to_submitted (P : Platform) (d : Dialog)
    (events : list (event P)) :
  files d <> [] ->
  row_count d <= Int.INT_MAX ->
  forallb (fun e => negb (is_start e)) events = true ->
  completions events <= row_count d ->
  let n := row_count d in
  let d0 := Start P d in
  let d' := run P events d0 in
  (queued_ d0 = n /\ finished_success_ d0 = 0 /\ finished_failed_ d0 = 0) /\
  0 <= queued_ d' /\ 0 <= finished_success_ d' /\ 0 <= finished_failed_ d' /\
  queued_ d' + finished_success_ d' + finished_failed_ d' = n.
Proof.
  intros Hf Hn Hs Hc n d0 d'.
  destruct (Start_counters P d Hf) as (Eq & Es & Ef). fold d0 n in Eq, Es, Ef.
  split; [auto|].
  destruct (run_keeps_sum P n events d0) as (A & B & C & D);
    try rewrite Eq; try rewrite Es; try rewrite Ef; auto; try lia.
  fold d' in A, B, C, D. rewrite Eq in A. unfold n in *. repeat split; auto; lia.
Qed.

Lemma counters_sum_witness :
  let n := row_count Sample.loaded in
  let d0 := Start Sample.platform Sample.loaded in
  let d' := run Sample.platform Sample.notifications d0 in
  (queued_ d0 = n /\ finished_success_ d0 = 0 /\ finished_failed_ d0 = 0) /\
  0 <= queued_ d' /\ 0 <= finished_success_ d' /\ 0 <= finished_failed_ d' /\
  queued_ d' + finished_success_ d' + finished_failed_ d' = n.
Proof.
  apply (counters_sum_to_submitted Sample.platform Sample.loaded
           Sample.notifications).
  - discriminate.
  - vm_compute. discriminate.
  - reflexivity.
  - vm_compute. discriminate.
Defined.

(** ** Facts about [Start] *)

Lemma Start_nonempty (P : Platform) (d : Dialog) :
  files d <> [] -> (row_count d =? 0) = false.
Proof.
  intros Hf. unfold row_count. apply Z.eqb_neq.
  destruct (files d); [congruence | simpl; lia].
Qed.

Lemma row_data_at (d : Dialog) (before after : list file_item) f :
  files d = (before ++ f :: after)%list ->
  row_data d (Z.of_nat (length before)) = user_data f.
Proof.
  intros E. unfold row_data. rewrite E.
  replace ((0 <=? Z.of_nat (length before))
           && (Z.of_nat (length before)
               <? Z.of_nat (length (before ++ f :: after)%list))) with true.
  - rewrite Nat2Z.id.
    replace (length before) with (length before + 0)%nat by lia.
    rewrite lookup_app_r by lia.
    now replace (length before + 0 - length before)%nat with 0%nat by lia.
  - symmetry. apply andb_true_iff.
    split; [apply Z.leb_le | apply Z.ltb_lt]; rewrite ?length_app; simpl; lia.
Qed.

(** The loop over the rows submits one job per remaining row, in order. *)
Lemma submit_rows_all (P : Platform) (d : Dialog) preset :
  forall (after before : list file_item) (calls : list engine_call),
    files d = (before ++ after)%list ->
    submit_rows P d preset (length after) (Z.of_nat (length before)) calls
    = (calls ++
       List.map
         (fun f =>
            AddJob (fromLocalFile (user_data f)) preset
              (GetOutputFileName P d (QFileInfo.mk (user_data f)) preset))
         after)%list.
Proof.
  induction after as [|f after IH]; intros before calls E; simpl.
  - now rewrite app_nil_r.
  - rewrite (row_data_at d before after f E).
    replace (Z.of_nat (length before) + 1)
      with (Z.of_nat (length (before ++ [f])%list))
      by (rewrite length_app; simpl; lia).
    rewrite IH by (now rewrite <- app_assoc).
    now rewrite <- app_assoc.
Qed.

Lemma GetOutputFileName_destination (P : Platform) (d d' : Dialog) input preset :
  destination d' = destination d ->
  GetOutputFileName P d' input preset = GetOutputFileName P d input preset.
Proof. intros E. unfold GetOutputFileName. now rewrite E. Qed.

Lemma submit_rows_state (P : Platform) (d d' : Dialog) preset todo :
  files d' = files d -> destination d' = destination d ->
  forall i calls,
    submit_rows P d' preset todo i calls = submit_rows P d preset todo i calls.
Proof.
  intros Ef Ed. induction todo as [|todo IH]; intros i calls; simpl; auto.
  rewrite IH. unfold row_data. rewrite Ef.
  now rewrite (GetOutputFileName_destination P d d').
Qed.

Lemma Start_calls (P : Platform) (d : Dialog) :
  files d <> [] ->
  transcoder_ (Start P d)
  = (transcoder_ d ++ List.map (job_of P d) (files d) ++ [EngineStart])%list.
Proof.
  intros Hf. pose proof (Start_nonempty P d Hf) as E.
  unfold Start. unfold row_count in E. rewrite E.
  cbn [transcoder_ with_settings with_transcoder UpdateStatusText
       with_progress_text with_counters with_progress_bar].
  rewrite Nat2Z.id.
  rewrite (submit_rows_state P d (SetWorking true d))
    by (destruct d; reflexivity).
  rewrite (submit_rows_all P d _ (files d) [] _ eq_refl).
  replace (transcoder_ (SetWorking true d)) with (transcoder_ d)
    by (destruct d; reflexivity).
  replace (format (SetWorking true d)) with (format d)
    by (destruct d; reflexivity).
  now rewrite <- app_assoc.
Qed.

Lemma Start_progress_bar (P : Platform) (d : Dialog) :
  files d <> [] ->
  progress_bar (Start P d)
  = QProgressBar.setMaximum (Int.mul (row_count d) 100)
      (QProgressBar.setValue 0 (progress_bar d)).
Proof.
  intros Hf. pose proof (Start_nonempty P d Hf) as E.
  unfold Start. unfold row_count in *. rewrite E. now destruct d.
Qed.

Lemma setValue_in_range v pb :
  QProgressBar.minimum pb <= v <= QProgressBar.maximum pb ->
  QProgressBar.setValue v pb
  = QProgressBar.mk (QProgressBar.minimum pb) (QProgressBar.maximum pb) v.
Proof.
  intros H. unfold QProgressBar.setValue.
  destruct (QProgressBar.value pb =? v) eqn:E.
  - apply Z.eqb_eq in E. destruct pb; simpl in *. now subst.
  - replace ((v >? QProgressBar.maximum pb) || (v <? QProgressBar.minimum pb))
      with false; [reflexivity|].
    symmetry. apply orb_false_iff. split.
    + rewrite Z.gtb_ltb. apply Z.ltb_ge. lia.
    + apply Z.ltb_ge. lia.
Qed.

Lemma setMaximum_after_zero lo hi n :
  lo <= 0 <= hi -> 0 <= n ->
  QProgressBar.setMaximum n (QProgressBar.mk lo hi 0)
  = QProgressBar.mk lo n 0.
Proof.
  intros H Hn. unfold QProgressBar.setMaximum, QProgressBar.setRange.
  cbn [QProgressBar.minimum QProgressBar.maximum QProgressBar.value].
  rewrite Z.min_l by lia. rewrite Z.eqb_refl. cbn [andb].
  destruct (n =? hi) eqn:E.
  - apply Z.eqb_eq in E. now subst.
  - rewrite Z.max_r by lia.
    replace ((0 <? lo - 1) || (0 >? n)) with false; [reflexivity|].
    symmetry. apply orb_false_iff. split.
    + apply Z.ltb_ge. lia.
    + rewrite Z.gtb_ltb. apply Z.ltb_ge. lia.
Qed.

(** ** Starting a run *)

(** C3.  [Start] on a list of [n] > 0 files (with [n * 100] an [int], and
    a progress bar whose range holds 0) makes exactly [n] [AddJob] calls on
    the engine, one per row in row order, each with the row's file as
    input, the selected preset and the output file name that
    [GetOutputFileName] computes for it, followed by one call of the
    engine's [Start]; the progress bar then has maximum [n * 100] and
    value 0. *)
Theorem start_submits_every_file (P : Platform) (d : Dialog) :
  files d <> [] ->
  row_count d * 100 <= Int.INT_MAX ->
  QProgressBar.minimum (progress_bar d) <= 0
    <= QProgressBar.maximum (progress_bar d) ->
  let n := row_count d in
  let preset := selected_preset d in
  let jobs :=
    List.map
      (fun f =>
         AddJob (fromLocalFile (user_data f)) preset
           (GetOutputFileName P d (QFileInfo.mk (user_data f)) preset))
      (files d) in
  transcoder_ (Start P d) = (transcoder_ d ++ jobs ++ [EngineStart])%list /\
  Z.of_nat (length jobs) = n /\
  QProgressBar.maximum (progress_bar (Start P d)) = n * 100 /\
  QProgressBar.value (progress_bar (Start P d)) = 0.
Proof.
  intros Hf Hn Hbar n preset jobs. split; [|split].
  - now rewrite Start_calls.
  - unfold jobs. now rewrite length_map.
  - rewrite Start_progress_bar by exact Hf. fold n.
    assert (Hn0 : 0 <= n) by (unfold n, row_count; lia).
    unfold Int.mul. rewrite wrap_in_range
      by (unfold Int.in_range, Int.INT_MIN, Int.INT_MAX in *; fold n in Hn; lia).
    rewrite setValue_in_range by exact Hbar.
    rewrite setMaximum_after_zero by (auto; lia). auto.
Qed.

Lemma start_submits_witness :
  let d := Sample.loaded in
  transcoder_ (Start Sample.platform d)
  = [AddJob (fromLocalFile "/home/u/a.wav") Sample.vorbis "/home/u/a.ogg";
     AddJob (fromLocalFile "/home/u/b.c.wav") Sample.vorbis "/home/u/b.c.ogg";
     EngineStart] /\
  QProgressBar.maximum (progress_bar (Start Sample.platform d)) = 200 /\
  QProgressBar.value (progress_bar (Start Sample.platform d)) = 0.
Proof.
  destruct (start_submits_every_file Sample.platform Sample.loaded)
    as (A & _ & B & C).
  - discriminate.
  - vm_compute. discriminate.
  - split; vm_compute; discriminate.
  - cbv zeta. rewrite A, B, C. repeat split.
Defined.

(** C8.  [Start] on an empty file list returns at once: the dialog is left
    exactly as it was, so no job is submitted, the engine is not started,
    the working state is not entered, the counters and the progress bar
    keep their values and [last_output_format] is not written. *)
Theorem start_on_empty_list_is_noop (P : Platform) (d : Dialog) :
  files d = [] ->
  Start P d = d /\
  transcoder_ (Start P d) = transcoder_ d /\
  widgets (Start P d) = widgets d /\
  progress_timer_ (Start P d) = progress_timer_ d /\
  queued_ (Start P d) = queued_ d /\
  finished_success_ (Start P d) = finished_success_ d /\
  finished_failed_ (Start P d) = finished_failed_ d /\
  progress_bar (Start P d) = progress_bar d /\
  settings (Start P d) = settings d.
Proof.
  intros Hf. assert (E : Start P d = d).
  { unfold Start. now rewrite Hf. }
  rewrite E. repeat split.
Qed.

Lemma start_on_empty_list_witness :
  files Sample.fresh = [] /\
  Start Sample.platform Sample.fresh = Sample.fresh /\
  settings (Start Sample.platform Sample.fresh)
    !! QSettings.full_key kSettingsGroup "last_output_format" = None.
Proof.
  split; [reflexivity|].
  destruct (start_on_empty_list_is_noop Sample.platform Sample.fresh eq_refl)
    as (A & _).
  split; [exact A|]. rewrite A. reflexivity.
Defined.

(** ** Job completion *)

Lemma add_progress_fold (P : Platform) (values : list (float P)) :
  forall progress,
    add_progress P progress values
    = List.fold_left
        (fun sum value => Int.add sum (Int.qBound 0 (percent P value) 99))
        values progress.
Proof. induction values as [|v values IH]; intros progress; simpl; auto. Qed.

(** C4.  A [JobComplete] notification (on counters that [++] and [--] do
    not overflow) adds one to [finished_success_] when the job succeeded
    and one to [finished_failed_] when it did not, leaving the other of the
    two alone, and takes one from [queued_].  It sets the status text to
    the tally of the new counters: joined by ", ", the translation of
    "%n remaining" for [queued_] in the colour #3467c8, of "%n finished"
    for [finished_success_] in #02b600 and of "%n failed" for
    [finished_failed_] in #b60000, each inside a font tag and each left out
    when its counter is zero.  It passes the new progress to the progress
    bar: 100 per finished job plus, one after the other, the clamped
    percentage of every job in the engine's progress map.  It makes no call
    on the engine and leaves the file list, the timer and the working state
    alone: nothing is retried, recovered or counted differently from what
    the engine reported. *)
Theorem job_complete_tallies (P : Platform) (input : QUrl) (output : string)
    (success : bool) (current_jobs : list (QUrl * float P)) (d : Dialog) :
  counters_fit d ->
  let d' := JobComplete P input output success current_jobs d in
  let tag (color body : string) : string :=
    String.append "<font color="
      (String "034"%char
         (String.append color
            (String "034"%char
               (String.append ">" (String.append body "</font>"))))) in
  let section (color source : string) (n : Z) : list string :=
    if n =? 0 then [] else [tag color (tr_n P source n)] in
  queued_ d' = queued_ d - 1 /\
  finished_success_ d' = finished_success_ d + (if success then 1 else 0) /\
  finished_failed_ d' = finished_failed_ d + (if success then 0 else 1) /\
  progress_text d'
  = QString.join ", "
      (section "#3467c8" "%n remaining" (queued_ d - 1)
       ++ section "#02b600" "%n finished"
            (finished_success_ d + (if success then 1 else 0))
       ++ section "#b60000" "%n failed"
            (finished_failed_ d + (if success then 0 else 1)))%list /\
  progress_bar d'
  = QProgressBar.setValue
      (List.fold_left
         (fun sum job => Int.add sum (Int.qBound 0 (percent P (snd job)) 99))
         current_jobs
         (Int.mul
            (Int.add (finished_success_ d + (if success then 1 else 0))
               (finished_failed_ d + (if success then 0 else 1)))
            100))
      (progress_bar d) /\
  transcoder_ d' = transcoder_ d /\
  files d' = files d /\
  progress_timer_ d' = progress_timer_ d /\
  widgets d' = widgets d.
Proof.
  intros (Hq & Hs & Hf) d' tag section.
  destruct (JobComplete_counters P input output success current_jobs d)
    as (Eq & Es & Ef). fold d' in Eq, Es, Ef.
  assert (Rq : Int.sub (queued_ d) 1 = queued_ d - 1)
    by (apply wrap_in_range; unfold Int.in_range; lia).
  assert (Rs : Int.add (finished_success_ d) 1 = finished_success_ d + 1)
    by (apply wrap_in_range; unfold Int.in_range; lia).
  assert (Rf : Int.add (finished_failed_ d) 1 = finished_failed_ d + 1)
    by (apply wrap_in_range; unfold Int.in_range; lia).
  rewrite Rq in Eq. rewrite Rs in Es. rewrite Rf in Ef.
  assert (Es' : finished_success_ d'
                = finished_success_ d + (if success then 1 else 0))
    by (rewrite Es; destruct success; lia).
  assert (Ef' : finished_failed_ d'
                = finished_failed_ d + (if success then 0 else 1))
    by (rewrite Ef; destruct success; lia).
  split; [exact Eq|]. split; [exact Es'|]. split; [exact Ef'|].
  rewrite <- Eq, <- Es', <- Ef'. split; [|split].
  - reflexivity.
  - replace (progress_bar d')
      with (QProgressBar.setValue
              (add_progress P
                 (Int.mul
                    (Int.add (finished_success_ d') (finished_failed_ d'))
                    100)
                 (List.map snd current_jobs))
              (progress_bar d))
      by reflexivity.
    rewrite add_progress_fold. f_equal.
    generalize (Int.mul
                  (Int.add (finished_success_ d') (finished_failed_ d')) 100).
    clear. induction current_jobs as [|job jobs IH]; intros z; simpl; auto.
  - repeat split.
Qed.

Lemma job_complete_witness :
  let d' :=
    JobComplete Sample.platform (fromLocalFile "/home/u/a.wav")
      "/home/u/a.ogg" true Sample.busy Sample.running in
  let tag (color body : string) : string :=
    String.append "<font color="
      (String "034"%char
         (String.append color
            (String "034"%char
               (String.append ">" (String.append body "</font>"))))) in
  queued_ d' = 1 /\ finished_success_ d' = 1 /\ finished_failed_ d' = 0 /\
  progress_text d'
  = QString.join ", "
      [tag "#3467c8" "1 remaining"; tag "#02b600" "1 finished"] /\
  QProgressBar.value (progress_bar d') = 150 /\
  transcoder_ d' = transcoder_ Sample.running.
Proof.
  destruct (job_complete_tallies Sample.platform
              (fromLocalFile "/home/u/a.wav") "/home/u/a.ogg" true
              Sample.busy Sample.running)
    as (A & B & C & T & D & E & _).
  - repeat split; vm_compute; congruence.
  - cbv zeta. rewrite A, B, C, T, D, E. repeat split.
Defined.

(** ** Facts about the progress bar *)

Lemma qBound_percent x : 0 <= Int.qBound 0 x 99 <= 99.
Proof. unfold Int.qBound. lia. Qed.

(** The loop of [UpdateProgress] computes a plain sum as long as the sum
    stays an [int]. *)
Lemma add_progress_sum (P : Platform) (values : list (float P)) :
  forall base,
    0 <= base -> base + 99 * Z.of_nat (length values) <= Int.INT_MAX ->
    add_progress P base values
    = base + list_sum_Z
               (List.map (fun v => Int.qBound 0 (percent P v) 99) values).
Proof.
  induction values as [|v values IH]; intros base Hb Hm; simpl.
  - lia.
  - pose proof (qBound_percent (percent P v)) as Hv.
    simpl length in Hm.
    unfold Int.add. rewrite wrap_in_range
      by (unfold Int.in_range, Int.INT_MIN, Int.INT_MAX in *; lia).
    rewrite IH by lia. lia.
Qed.

Lemma list_sum_percent (P : Platform) (values : list (float P)) :
  0 <= list_sum_Z (List.map (fun v => Int.qBound 0 (percent P v) 99) values)
    <= 99 * Z.of_nat (length values).
Proof.
  induction values as [|v values IH]; simpl.
  - lia.
  - pose proof (qBound_percent (percent P v)). lia.
Qed.

(** ** The progress value *)

(** C9.  In a run of [n] jobs (counters not negative and adding up to [n],
    the bar ranging from 0 to [n * 100], an [int]) for which the engine
    reports at most [queued_] jobs in flight, [UpdateProgress] sets the bar
    to 100 per finished job, successful or failed, plus for every job in
    flight the value [int(value * 100)] clamped into 0..99.  That value
    never exceeds the maximum of the bar and equals it only when no job is
    queued any more. *)
Theorem update_progress_bounded (P : Platform)
    (current_jobs : list (QUrl * float P)) (d : Dialog) (n : Z) :
  0 <= queued_ d -> 0 <= finished_success_ d -> 0 <= finished_failed_ d ->
  queued_ d + finished_success_ d + finished_failed_ d = n ->
  n * 100 <= Int.INT_MAX ->
  QProgressBar.minimum (progress_bar d) = 0 ->
  QProgressBar.maximum (progress_bar d) = n * 100 ->
  Z.of_nat (length current_jobs) <= queued_ d ->
  let bar := progress_bar (UpdateProgress P current_jobs d) in
  QProgressBar.value bar
  = (finished_success_ d + finished_failed_ d) * 100
    + list_sum_Z
        (List.map (fun job => Int.qBound 0 (percent P (snd job)) 99)
           current_jobs) /\
  (forall job : QUrl * float P,
      0 <= Int.qBound 0 (percent P (snd job)) 99 <= 99) /\
  QProgressBar.maximum bar = n * 100 /\
  QProgressBar.value bar <= QProgressBar.maximum bar /\
  (QProgressBar.value bar = QProgressBar.maximum bar ->
   queued_ d = 0 /\ current_jobs = []).
Proof.
  intros Hq Hs Hf Hsum Hn Hmin Hmax Hlen bar.
  pose proof (list_sum_percent P (List.map snd current_jobs)) as Hb.
  rewrite length_map in Hb.
  assert (E : QProgressBar.value bar
              = (finished_success_ d + finished_failed_ d) * 100
                + list_sum_Z
                    (List.map (fun v => Int.qBound 0 (percent P v) 99)
                       (List.map snd current_jobs))
              /\ QProgressBar.maximum bar = n * 100).
  { unfold bar, UpdateProgress.
    replace (progress_bar (with_progress_bar _ d))
      with (QProgressBar.setValue
              (add_progress P
                 (Int.mul (Int.add (finished_success_ d) (finished_failed_ d))
                    100)
                 (List.map snd current_jobs))
              (progress_bar d))
      by now destruct d.
    unfold Int.mul, Int.add.
    rewrite (wrap_in_range (finished_success_ d + finished_failed_ d))
      by (unfold Int.in_range, Int.INT_MIN, Int.INT_MAX in *; lia).
    rewrite wrap_in_range
      by (unfold Int.in_range, Int.INT_MIN, Int.INT_MAX in *; lia).
    rewrite add_progress_sum by (rewrite ?length_map; lia).
    rewrite setValue_in_range by lia. simpl. auto. }
  destruct E as [Ev Em]. rewrite List.map_map in Ev.
  rewrite List.map_map in Hb.
  split; [exact Ev|]. split; [intros job; apply qBound_percent|].
  split; [exact Em|]. rewrite Ev, Em. split; [lia|].
  intros Heq. assert (queued_ d = 0) by lia. split; [assumption|].
  destruct current_jobs; [reflexivity | simpl in Hlen; lia].
Qed.

Lemma update_progress_witness :
  let d :=
    JobComplete Sample.platform (fromLocalFile "/home/u/a.wav")
      "/home/u/a.ogg" true [] Sample.running in
  let bar := progress_bar (UpdateProgress Sample.platform Sample.busy d) in
  QProgressBar.value bar = 150 /\ QProgressBar.maximum bar = 200 /\
  QProgressBar.value bar <= QProgressBar.maximum bar.
Proof.
  destruct (update_progress_bounded Sample.platform Sample.busy
              (JobComplete Sample.platform (fromLocalFile "/home/u/a.wav")
                 "/home/u/a.ogg" true [] Sample.running) 2)
    as (A & _ & B & C & _).
  - vm_compute. discriminate.
  - vm_compute. discriminate.
  - vm_compute. discriminate.
  - reflexivity.
  - vm_compute. discriminate.
  - reflexivity.
  - reflexivity.
  - vm_compute. discriminate.
  - cbv zeta. split; [rewrite A; reflexivity|]. split; [exact B | exact C].
Defined.

(** ** The output file name *)

(** C10.  For every input file and preset, [GetOutputFileName] puts the
    output into the folder of the selected destination entry when that
    entry names an existing directory and into the input file's own
    directory otherwise, and appends '/', the complete base name of the
    input, '.' and the extension of the preset.  So the folder the user has
    just added is used when it exists, and the entry without data (the one
    the form provides) keeps the output next to its input. *)
Theorem output_file_name (P : Platform) (d : Dialog) (input : QFileInfo.t)
    (preset : TranscoderPreset) :
  let selected :=
    QComboBox.itemData (destination d)
      (QComboBox.currentIndex (destination d)) in
  GetOutputFileName P d input preset
  = String.append
      (if isDir P (toString selected) then toString selected
       else QFileInfo.path input)
      (String.append "/"
         (String.append (QFileInfo.completeBaseName input)
            (String.append "." (extension_ preset)))) /\
  (forall dir, dir <> EmptyString -> isDir P dir = true ->
     GetOutputFileName P (AddDestination dir d) input preset
     = file_in dir input preset) /\
  (selected = VNull -> isDir P EmptyString = false ->
   GetOutputFileName P d input preset
   = file_in (QFileInfo.path input) input preset).
Proof.
  intros selected. split; [reflexivity|]. split.
  - intros dir Hd Hdir. unfold GetOutputFileName, file_in.
    replace (destination (AddDestination dir d))
      with (add_destination dir (destination d)) by now destruct d.
    rewrite add_destination_current by exact Hd. simpl. now rewrite Hdir.
  - intros Hsel Hdir. unfold GetOutputFileName, file_in. fold selected.
    rewrite Hsel. simpl. now rewrite Hdir.
Qed.

Lemma output_file_name_witness :
  GetOutputFileName Sample.platform
    (AddDestination "/music/out" Sample.fresh)
    (QFileInfo.mk "/home/u/b.c.wav") Sample.flac
  = "/music/out/b.c.flac" /\
  GetOutputFileName Sample.platform Sample.fresh
    (QFileInfo.mk "/home/u/b.c.wav") Sample.flac
  = "/home/u/b.c.flac".
Proof.
  destruct (output_file_name Sample.platform Sample.fresh
              (QFileInfo.mk "/home/u/b.c.wav") Sample.flac)
    as (_ & A & B).
  split.
  - rewrite (A "/music/out"); [reflexivity | discriminate | reflexivity].
  - rewrite B; reflexivity.
Defined.

(** ** Persisted settings *)

Lemma lookup_setValue group key v (s : gmap string string) :
  QSettings.setValue group key v s !! QSettings.full_key group key = Some v.
Proof. unfold QSettings.setValue. apply lookup_insert_eq. Qed.

(** C6, as amended.  Every [Add] in which the user chose files stores
    [last_add_dir_], which it sets to the first chosen file name, under
    [Transcoder/last_add_dir]; every [Import] in which the user chose a
    folder stores that folder under [Transcoder/last_import_dir]; and every
    [Start] on a file list that is not empty stores the codec mimetype of
    the selected preset under [Transcoder/last_output_format].  Each write
    is made by the slot of the action itself. *)
Theorem user_actions_persist_settings (P : Platform) (d : Dialog) :
  (forall first rest,
     let d' := handle P (AddClicked (first :: rest)) d in
     settings d' !! setting "last_add_dir" = Some (last_add_dir_ d') /\
     last_add_dir_ d' = first) /\
  (forall path found, path <> EmptyString ->
     let d' := handle P (ImportClicked path found) d in
     settings d' !! setting "last_import_dir" = Some (last_import_dir_ d') /\
     last_import_dir_ d' = path) /\
  (files d <> [] ->
   settings (handle P StartClicked d) !! setting "last_output_format"
   = Some (codec_mimetype_ (selected_preset d))).
Proof.
  split; [|split].
  - intros first rest d'. split; [|reflexivity].
    unfold d'. simpl. apply lookup_setValue.
  - intros path found Hp d'. unfold d'. simpl.
    destruct path as [|c path]; [congruence|]. split; [|reflexivity].
    simpl. apply lookup_setValue.
  - intros Hf. simpl handle.
    pose proof (Start_nonempty P d Hf) as E. unfold row_count in E.
    unfold Start. rewrite E. cbn [settings with_settings].
    replace (format (SetWorking true d)) with (format d)
      by (destruct d; reflexivity).
    apply lookup_setValue.
Qed.

Lemma user_actions_persist_witness :
  settings (handle Sample.platform (AddClicked Sample.two_files) Sample.fresh)
    !! setting "last_add_dir" = Some "/home/u/a.wav" /\
  settings
    (handle Sample.platform (ImportClicked "/music" ["/music/x.flac"])
       Sample.fresh)
    !! setting "last_import_dir" = Some "/music" /\
  settings (handle Sample.platform StartClicked Sample.loaded)
    !! setting "last_output_format" = Some "audio/x-vorbis".
Proof.
  destruct (user_actions_persist_settings Sample.platform Sample.fresh)
    as (A & B & _).
  destruct (user_actions_persist_settings Sample.platform Sample.loaded)
    as (_ & _ & C).
  split; [|split].
  - destruct (A "/home/u/a.wav" ["/home/u/b.c.wav"]) as [A1 A2].
    cbv zeta in A1, A2. unfold Sample.two_files. rewrite A1. now rewrite A2.
  - destruct (B "/music" ["/music/x.flac"]) as [B1 B2]; [discriminate|].
    cbv zeta in B1, B2. rewrite B1. now rewrite B2.
  - rewrite C; [reflexivity | discriminate].
Defined.

(** C6, as stated, fails.  [Start] on the empty file list of a fresh
    dialog, whose format chooser has a preset selected, returns before it
    reaches the settings: [last_output_format] is not stored. *)
Lemma start_without_files_persists_nothing :
  files Sample.fresh = [] /\
  selected_preset Sample.fresh = Sample.vorbis /\
  settings (handle Sample.platform StartClicked Sample.fresh)
    !! setting "last_output_format" = None /\
  ~ persists_output_format Sample.platform Sample.fresh.
Proof.
  split; [reflexivity|]. split; [reflexivity|]. split; [reflexivity|].
  unfold persists_output_format. vm_compute. discriminate.
Qed.

(** ** Progress polling *)

Lemma SetWorking_timer (working : bool) (d : Dialog) :
  QBasicTimer.isActive (progress_timer_ (SetWorking working d)) = working /\
  (working = true ->
   QBasicTimer.interval (progress_timer_ (SetWorking working d))
   = kProgressInterval).
Proof. destruct working; simpl; auto. split; auto. discriminate. Qed.

(** C5, as amended.  The progress timer runs with an interval of
    [kProgressInterval] = 500 ms from the moment working begins ([Start] on
    a list that is not empty) until it ends ([Cancel] or the engine's
    [AllJobsComplete]).  A timer event of that timer passes the progress
    the engine reports to the bar, and so does every [JobComplete]
    notification, after it has updated the counters.  [Start] resets the
    bar; no other event, and no timer event of another timer, changes
    it. *)
Theorem progress_bar_updates (P : Platform) (d : Dialog) :
  kProgressInterval = 500 /\
  (files d <> [] ->
   QBasicTimer.isActive (progress_timer_ (handle P StartClicked d)) = true /\
   QBasicTimer.interval (progress_timer_ (handle P StartClicked d))
   = kProgressInterval) /\
  QBasicTimer.isActive (progress_timer_ (handle P CancelClicked d)) = false /\
  QBasicTimer.isActive (progress_timer_ (handle P EngineAllJobsComplete d))
  = false /\
  (forall id report, id = QBasicTimer.timerId (progress_timer_ d) ->
     progress_bar (handle P (TimerEvent id report) d)
     = progress_bar (UpdateProgress P report d)) /\
  (forall input output success report,
     let d' := handle P (EngineJobComplete input output success report) d in
     progress_bar d'
     = QProgressBar.setValue
         (add_progress P
            (Int.mul (Int.add (finished_success_ d') (finished_failed_ d'))
               100)
            (List.map snd report))
         (progress_bar d)) /\
  (forall e : event P, touches_progress_bar e d = false ->
     progress_bar (handle P e d) = progress_bar d).
Proof.
  split; [reflexivity|]. split; [|split; [|split; [|split; [|split]]]].
  - intros Hf. simpl handle.
    pose proof (Start_nonempty P d Hf) as E. unfold row_count in E.
    unfold Start. rewrite E. now destruct d.
  - now destruct d.
  - now destruct d.
  - intros id report ->. simpl. unfold timerEvent. now rewrite Z.eqb_refl.
  - intros input output success report d'. now destruct d.
  - intros e He. destruct e; simpl in *; try discriminate; auto.
    + destruct filenames; auto.
    + destruct path; auto.
    + unfold timerEvent. now rewrite He.
Qed.

Lemma progress_bar_updates_witness :
  QBasicTimer.isActive
    (progress_timer_ (handle Sample.platform StartClicked Sample.loaded))
  = true /\
  QBasicTimer.interval
    (progress_timer_ (handle Sample.platform StartClicked Sample.loaded))
  = 500 /\
  QProgressBar.value
    (progress_bar
       (handle Sample.platform (TimerEvent (P:=Sample.platform) 1 Sample.busy)
          Sample.running))
  = 50 /\
  progress_bar
    (handle Sample.platform (EngineLogLine "Sat Oct 30" "a.wav: done")
       Sample.running)
  = progress_bar Sample.running.
Proof.
  destruct (progress_bar_updates Sample.platform Sample.loaded)
    as (_ & A & _).
  destruct (progress_bar_updates Sample.platform Sample.running)
    as (_ & _ & _ & _ & B & _ & C).
  destruct A as [A1 A2]; [discriminate|].
  split; [exact A1|]. split; [rewrite A2; reflexivity|]. split.
  - rewrite (B 1 Sample.busy); reflexivity.
  - apply C. reflexivity.
Defined.

(** C5, as stated, fails.  In the running dialog a [JobComplete]
    notification, which is no timer event, sets the bar from the progress
    the engine reports at that moment: to 150 when the other job is half
    done, to 100 when the engine reports no job in flight. *)
Lemma job_complete_polls_progress :
  QBasicTimer.isActive (progress_timer_ Sample.running) = true /\
  QProgressBar.value (progress_bar Sample.running) = 0 /\
  QProgressBar.value
    (progress_bar
       (handle Sample.platform
          (EngineJobComplete (P:=Sample.platform)
             (fromLocalFile "/home/u/a.wav") "/home/u/a.ogg" true Sample.busy)
          Sample.running))
  = 150 /\
  QProgressBar.value
    (progress_bar
       (handle Sample.platform
          (EngineJobComplete (P:=Sample.platform)
             (fromLocalFile "/home/u/a.wav") "/home/u/a.ogg" true [])
          Sample.running))
  = 100 /\
  ~ polls_on_timer_only Sample.platform.
Proof.
  repeat (split; [reflexivity|]).
  intros H.
  specialize (H (fromLocalFile "/home/u/a.wav") "/home/u/a.ogg" true
                Sample.busy [] Sample.running).
  vm_compute in H. discriminate H.
Qed.

(** ** Facts about the constructor *)

Lemma add_presets_items (presets : list TranscoderPreset) :
  forall cb,
    QComboBox.items (add_presets presets cb)
    = (QComboBox.items cb ++ List.map format_item presets)%list.
Proof.
  induction presets as [|p presets IH]; intros cb; simpl.
  - now rewrite app_nil_r.
  - rewrite IH. simpl. now rewrite <- app_assoc.
Qed.

Lemma add_presets_current (presets : list TranscoderPreset) :
  forall cb,
    QComboBox.currentIndex (add_presets presets cb)
    = match QComboBox.items cb, presets with
      | [], _ :: _ => 0
      | _, _ => QComboBox.currentIndex cb
      end.
Proof.
  induction presets as [|p presets IH]; intros cb; simpl.
  - now destruct (QComboBox.items cb).
  - rewrite IH. simpl. destruct (QComboBox.items cb); simpl; auto.
Qed.

Lemma itemData_at cb (before after : list QComboBox.item) it :
  QComboBox.items cb = (before ++ it :: after)%list ->
  QComboBox.valid cb (Z.of_nat (length before)) = true /\
  QComboBox.itemData cb (Z.of_nat (length before)) = QComboBox.data it.
Proof.
  intros E.
  assert (V : QComboBox.valid cb (Z.of_nat (length before)) = true).
  { unfold QComboBox.valid, QComboBox.count. rewrite E, length_app. simpl.
    apply andb_true_iff. split; [apply Z.leb_le | apply Z.ltb_lt]; lia. }
  split; [exact V|]. unfold QComboBox.itemData. rewrite V, E, Nat2Z.id.
  replace (length before) with (length before + 0)%nat by lia.
  rewrite lookup_app_r by lia.
  now replace (length before + 0 - length before)%nat with 0%nat by lia.
Qed.

(** The loop passes over the presets that do not match. *)
Lemma select_format_none last cb :
  forall (after before : list QComboBox.item),
    QComboBox.items cb = (before ++ after)%list ->
    (forall it, it ∈ after ->
       codec_mimetype_ (toPreset (QComboBox.data it)) <> last) ->
    select_format last (length after) (Z.of_nat (length before)) cb = cb.
Proof.
  induction after as [|it after IH]; intros before E Hno; simpl; auto.
  destruct (itemData_at cb before after it E) as [_ D]. rewrite D.
  destruct (String.eqb last (codec_mimetype_ (toPreset (QComboBox.data it))))
    eqn:Q.
  - apply String.eqb_eq in Q. exfalso.
    apply (Hno it); [apply elem_of_cons; now left | now symmetry].
  - replace (Z.of_nat (length before) + 1)
      with (Z.of_nat (length (before ++ [it])%list))
      by (rewrite length_app; simpl; lia).
    apply IH.
    + now rewrite <- app_assoc.
    + intros x Hx. apply Hno. apply elem_of_cons. now right.
Qed.

(** The loop stops at the first preset that matches and selects it. *)
Lemma select_format_first last cb :
  forall (skipped before after : list QComboBox.item) it,
    QComboBox.items cb = (before ++ skipped ++ it :: after)%list ->
    (forall x, x ∈ skipped ->
       codec_mimetype_ (toPreset (QComboBox.data x)) <> last) ->
    codec_mimetype_ (toPreset (QComboBox.data it)) = last ->
    select_format last (length (skipped ++ it :: after)%list)
      (Z.of_nat (length before)) cb
    = QComboBox.mk (QComboBox.items cb)
        (Z.of_nat (length before + length skipped)).
Proof.
  induction skipped as [|x skipped IH]; intros before after it E Hno Hit.
  - simpl in *. destruct (itemData_at cb before after it E) as [V D].
    rewrite D, Hit, String.eqb_refl, Nat.add_0_r.
    now apply setCurrentIndex_valid.
  - simpl app in *. simpl length. cbn [select_format].
    destruct (itemData_at cb before _ x E) as [_ D]. rewrite D.
    destruct (String.eqb last (codec_mimetype_ (toPreset (QComboBox.data x))))
      eqn:Q.
    + apply String.eqb_eq in Q. exfalso.
      apply (Hno x); [apply elem_of_cons; now left | now symmetry].
    + replace (Z.of_nat (length before) + 1)
        with (Z.of_nat (length (before ++ [x])%list))
        by (rewrite length_app; simpl; lia).
      rewrite (IH (before ++ [x])%list after it).
      * f_equal. rewrite length_app. simpl. lia.
      * now rewrite <- app_assoc.
      * intros y Hy. apply Hno. apply elem_of_cons. now right.
      * exact Hit.
Qed.

Lemma constructor_format (P : Platform) form all_presets stored home :
  form_format form = QComboBox.mk [] (-1) ->
  let presets := std_sort P ComparePresetsByName all_presets in
  format (TranscodeDialog P form all_presets stored home)
  = select_format (last_output_format stored) (length presets) 0
      (QComboBox.mk (List.map format_item presets)
         (match presets with [] => -1 | _ => 0 end)).
Proof.
  intros Hform presets. unfold TranscodeDialog. cbn [format]. fold presets.
  assert (E : add_presets presets (form_format form)
              = QComboBox.mk (List.map format_item presets)
                  (match presets with [] => -1 | _ => 0 end)).
  { rewrite Hform.
    pose proof (add_presets_items presets (QComboBox.mk [] (-1))) as Hi.
    pose proof (add_presets_current presets (QComboBox.mk [] (-1))) as Hc.
    destruct (add_presets presets (QComboBox.mk [] (-1))) as [its cur].
    simpl in Hi, Hc. rewrite Hi, Hc. now destruct presets. }
  rewrite E. cbn [QComboBox.items]. now rewrite length_map.
Qed.

Lemma ltb_asym (s t : string) : String.ltb s t = true -> String.ltb t s = false.
Proof.
  unfold String.ltb. rewrite (String.compare_antisym s t).
  now destruct (String.compare t s).
Qed.

Lemma insert_Permutation comp x l :
  Permutation (Sample.insert comp x l) (x :: l).
Proof.
  induction l as [|y l IH]; simpl; [reflexivity|].
  destruct (comp x y); [reflexivity|].
  rewrite IH. apply perm_swap.
Qed.

Lemma insert_Sorted x l :
  Sorted (fun a b => ComparePresetsByName b a = false) l ->
  Sorted (fun a b => ComparePresetsByName b a = false)
    (Sample.insert ComparePresetsByName x l).
Proof.
  induction l as [|y l IH]; intros Hs; simpl.
  - repeat constructor.
  - destruct (ComparePresetsByName x y) eqn:E.
    + constructor; [exact Hs|]. constructor. now apply ltb_asym.
    + apply Sorted_inv in Hs as [Hs Hd]. constructor; [now apply IH|].
      destruct l as [|z l]; simpl.
      * now constructor.
      * destruct (ComparePresetsByName x z); constructor; auto.
        now apply HdRel_inv in Hd.
Qed.

(** Sorting by insertion meets what the dialog needs of [std::sort]. *)
Lemma insertion_sort_sorts (l : list TranscoderPreset) :
  sorts Sample.platform ComparePresetsByName l.
Proof.
  unfold sorts. simpl. induction l as [|x l [IHp IHs]]; simpl.
  - split; [reflexivity | constructor].
  - split.
    + rewrite insert_Permutation. now constructor.
    + now apply insert_Sorted.
Qed.

(** ** The format chooser after construction *)

(** C7.  The constructor (on a form whose format chooser is empty, with a
    [std::sort] that sorts) fills the format chooser with one item per
    preset, in the order of the presets sorted by name.  It then selects
    the first of them whose codec mimetype is the stored
    [last_output_format], "audio/x-vorbis" when nothing is stored; when no
    preset has that mimetype the first item remains selected. *)
Theorem format_chooser_initial (P : Platform) (form : Form)
    (all_presets : list TranscoderPreset) (stored : gmap string string)
    (home : string) :
  form_format form = QComboBox.mk [] (-1) ->
  sorts P ComparePresetsByName all_presets ->
  let d := TranscodeDialog P form all_presets stored home in
  let presets := std_sort P ComparePresetsByName all_presets in
  let last := last_output_format stored in
  QComboBox.items (format d) = List.map format_item presets /\
  Permutation presets all_presets /\
  Sorted (fun a b => String.ltb (name_ b) (name_ a) = false) presets /\
  last = default "audio/x-vorbis" (stored !! setting "last_output_format") /\
  (forall (i : nat) p,
     presets !! i = Some p -> codec_mimetype_ p = last ->
     (forall (j : nat) q, (j < i)%nat -> presets !! j = Some q ->
        codec_mimetype_ q <> last) ->
     QComboBox.currentIndex (format d) = Z.of_nat i /\
     selected_preset d = p) /\
  ((forall p, p ∈ presets -> codec_mimetype_ p <> last) ->
   QComboBox.currentIndex (format d)
   = match presets with [] => -1 | _ => 0 end).
Proof.
  intros Hform [Hperm Hsorted] d presets last.
  pose proof (constructor_format P form all_presets stored home Hform) as F.
  cbv zeta in F. fold d presets last in F.
  set (cb0 := QComboBox.mk (List.map format_item presets)
                (match presets with [] => -1 | _ => 0 end)) in F.
  assert (Hnone : (forall p, p ∈ presets -> codec_mimetype_ p <> last) ->
                  format d = cb0).
  { intros Hno. rewrite F.
    replace (length presets) with (length (List.map format_item presets))
      by apply length_map.
    apply (select_format_none last cb0 (List.map format_item presets) []).
    - reflexivity.
    - intros it Hit. apply list_elem_of_In, in_map_iff in Hit
        as (p & <- & Hp).
      apply Hno. now apply list_elem_of_In. }
  assert (Hfirst : forall (i : nat) p,
     presets !! i = Some p -> codec_mimetype_ p = last ->
     (forall (j : nat) q, (j < i)%nat -> presets !! j = Some q ->
        codec_mimetype_ q <> last) ->
     format d = QComboBox.mk (QComboBox.items cb0) (Z.of_nat i)).
  { intros i p Hi Hp Hbefore. rewrite F.
    pose proof (take_drop_middle presets i p Hi) as Hsplit.
    pose proof (lookup_lt_Some _ _ _ Hi) as Hlt.
    assert (E : List.map format_item presets
                = ([] ++ List.map format_item (take i presets)
                   ++ format_item p
                   :: List.map format_item (drop (S i) presets))%list).
    { rewrite <- Hsplit at 1. now rewrite List.map_app. }
    replace (length presets)
      with (length (List.map format_item (take i presets)
                    ++ format_item p
                    :: List.map format_item (drop (S i) presets))%list).
    2:{ simpl in E. rewrite <- E. apply length_map. }
    pose proof (select_format_first last cb0 _ [] _ (format_item p) E) as S.
    change (Z.of_nat (length (@nil QComboBox.item))) with 0 in S.
    rewrite S.
    - f_equal. simpl. rewrite length_map, length_take_le by lia. reflexivity.
    - intros x Hx. apply list_elem_of_In, in_map_iff in Hx as (q & <- & Hq).
      apply list_elem_of_In, list_elem_of_lookup in Hq as [j Hj].
      apply lookup_take_Some in Hj as [Hj Hji]. simpl. eauto.
    - exact Hp. }
  split; [|split; [exact Hperm | split; [exact Hsorted | split]]].
  - rewrite F. clear F Hnone Hfirst.
    assert (G : forall todo i cb,
              QComboBox.items (select_format last todo i cb)
              = QComboBox.items cb).
    { induction todo as [|todo IH]; intros i cb; simpl; auto.
      destruct (String.eqb _ _); auto. }
    now rewrite G.
  - unfold last, last_output_format, QSettings.value, setting.
    now destruct (stored !! _).
  - split.
    + intros i p Hi Hp Hbefore. rewrite (Hfirst i p Hi Hp Hbefore).
      split; [reflexivity|]. unfold selected_preset.
      rewrite (Hfirst i p Hi Hp Hbefore). cbn [QComboBox.currentIndex].
      pose proof (take_drop_middle presets i p Hi) as Hsplit.
      pose proof (lookup_lt_Some _ _ _ Hi) as Hlt.
      assert (E : QComboBox.items
                    (QComboBox.mk (QComboBox.items cb0) (Z.of_nat i))
                  = (List.map format_item (take i presets)
                     ++ format_item p
                     :: List.map format_item (drop (S i) presets))%list).
      { simpl. rewrite <- Hsplit at 1. now rewrite List.map_app. }
      destruct (itemData_at _ _ _ _ E) as [_ D].
      rewrite length_map, length_take_le in D by lia. now rewrite D.
    + intros Hno. now rewrite (Hnone Hno).
Qed.

Lemma format_chooser_witness :
  let d := Sample.fresh in
  List.map QComboBox.text (QComboBox.items (format d))
  = ["Flac (.flac)"; "MP3 (.mp3)"; "Ogg Opus (.opus)"; "Ogg Vorbis (.ogg)"] /\
  QComboBox.currentIndex (format d) = 3 /\
  selected_preset d = Sample.vorbis /\
  QComboBox.currentIndex
    (format
       (TranscodeDialog Sample.platform Sample.form Sample.presets
          {[ setting "last_output_format" := "audio/x-wav" ]} "/home/u"))
  = 0.
Proof.
  destruct (format_chooser_initial Sample.platform Sample.form Sample.presets
              ∅ "/home/u" eq_refl (insertion_sort_sorts Sample.presets))
    as (A & _ & _ & _ & B & _).
  destruct (format_chooser_initial Sample.platform Sample.form Sample.presets
              {[ setting "last_output_format" := "audio/x-wav" ]} "/home/u"
              eq_refl (insertion_sort_sorts Sample.presets))
    as (_ & _ & _ & _ & _ & C).
  cbv zeta. split; [|split; [|split]].
  - unfold Sample.fresh. rewrite A. reflexivity.
  - apply (B 3%nat Sample.vorbis); [reflexivity | reflexivity |].
    intros j q Hj Hq.
    destruct j as [|[|[|j]]]; [| | |lia]; vm_compute in Hq;
      injection Hq as <-; discriminate.
  - apply (B 3%nat Sample.vorbis); [reflexivity | reflexivity |].
    intros j q Hj Hq.
    destruct j as [|[|[|j]]]; [| | |lia]; vm_compute in Hq;
      injection Hq as <-; discriminate.
  - rewrite C; [reflexivity|].
    intros p Hp.
    vm_compute in Hp. apply list_elem_of_In in Hp. simpl in Hp.
    destruct Hp as [<-|[<-|[<-|[<-|[]]]]]; vm_compute; discriminate.
Defined.

(** ** Facts about splitting and joining *)

Lemma split_nonempty sep s : QString.split sep s <> [].
Proof.
  destruct s as [|c s]; simpl; [discriminate|].
  destruct (Ascii.eqb c sep); [discriminate|].
  destruct (QString.split sep s); discriminate.
Qed.

Lemma join_split sep s :
  QString.join (String sep EmptyString) (QString.split sep s) = s.
Proof.
  induction s as [|c s IH]; simpl; [reflexivity|].
  pose proof (split_nonempty sep s) as Hne.
  destruct (Ascii.eqb c sep) eqn:E.
  - apply Ascii.eqb_eq in E. subst c.
    destruct (QString.split sep s) as [|f fs]; [congruence|].
    rewrite <- IH. reflexivity.
  - destruct (QString.split sep s) as [|f fs]; [congruence|].
    rewrite <- IH. destruct fs; reflexivity.
Qed.

Lemma append_assoc (a b c : string) :
  String.append a (String.append b c) = String.append (String.append a b) c.
Proof.
  induction a as [|x a IH]; [reflexivity | exact (f_equal (String x) IH)].
Qed.

Lemma join_snoc sep (l : list string) x :
  l <> [] ->
  QString.join sep (l ++ [x])
  = String.append (QString.join sep l) (String.append sep x).
Proof.
  induction l as [|y l IH]; intros Hne; [congruence|].
  destruct l as [|z l].
  - reflexivity.
  - change (QString.join sep ((y :: z :: l) ++ [x]))
      with (String.append y
              (String.append sep (QString.join sep ((z :: l) ++ [x])))).
    rewrite IH by discriminate.
    change (QString.join sep (y :: z :: l))
      with (String.append y (String.append sep (QString.join sep (z :: l)))).
    now rewrite !append_assoc.
Qed.

Lemma split_fields_clean sep s :
  Forall (fun f => contains sep f = false) (QString.split sep s).
Proof.
  induction s as [|c s IH]; simpl.
  - repeat constructor.
  - destruct (Ascii.eqb c sep) eqn:E.
    + constructor; [reflexivity | exact IH].
    + destruct (QString.split sep s) as [|f fs]; [repeat constructor; simpl; now rewrite E|].
      apply Forall_cons in IH as [Hf Hfs]. constructor; [|exact Hfs].
      simpl. now rewrite E, Hf.
Qed.

Lemma split_clean sep s :
  contains sep s = false -> QString.split sep s = [s].
Proof.
  induction s as [|c s IH]; simpl; [reflexivity|].
  intros H. apply orb_false_iff in H as [E H].
  rewrite E, (IH H). reflexivity.
Qed.

Lemma split_app_sep sep a b :
  QString.split sep (String.append a (String sep b))
  = (QString.split sep a ++ QString.split sep b)%list.
Proof.
  induction a as [|c a IH]; simpl.
  - now rewrite Ascii.eqb_refl.
  - destruct (Ascii.eqb c sep); [now rewrite IH|].
    rewrite IH. pose proof (split_nonempty sep a).
    destruct (QString.split sep a); [congruence | reflexivity].
Qed.

Lemma last_snoc {A} (l : list A) x d : List.last (l ++ [x]) d = x.
Proof. apply List.last_last. Qed.

Lemma removelast_snoc {A} (l : list A) x : List.removelast (l ++ [x]) = l.
Proof. apply List.removelast_last. Qed.

Lemma split_two_fields sep s :
  contains sep s = true -> (2 <= length (QString.split sep s))%nat.
Proof.
  induction s as [|c s IH]; simpl; [discriminate|].
  destruct (Ascii.eqb c sep) eqn:E; simpl.
  - intros _. pose proof (split_nonempty sep s).
    destruct (QString.split sep s); [congruence | simpl; lia].
  - intros H. specialize (IH H).
    destruct (QString.split sep s) as [|f fs]; simpl in *; lia.
Qed.

(** A file name with a slash splits into what precedes the last slash and
    what follows it. *)
Lemma section_round_trip sep s :
  contains sep s = true ->
  String.append (QString.section_but_last sep s)
    (String.append (String sep EmptyString) (QString.section_last sep s))
  = s.
Proof.
  intros H. pose proof (split_two_fields sep s H) as Hlen.
  pose proof (join_split sep s) as Hj.
  unfold QString.section_but_last, QString.section_last.
  destruct (List.exists_last (split_nonempty sep s)) as (l & x & E).
  rewrite E in *. rewrite last_snoc, removelast_snoc.
  rewrite join_snoc in Hj; [exact Hj|].
  destruct l; [simpl in Hlen; lia | discriminate].
Qed.

Lemma section_last_clean sep s :
  contains sep (QString.section_last sep s) = false.
Proof.
  unfold QString.section_last.
  destruct (List.exists_last (split_nonempty sep s)) as (l & x & E).
  pose proof (split_fields_clean sep s) as F. rewrite E in *.
  rewrite last_snoc. apply Forall_app in F as [_ F].
  now apply Forall_cons in F as [F _].
Qed.

Lemma section_no_sep sep s :
  contains sep s = false ->
  QString.section_last sep s = s /\
  QString.section_but_last sep s = EmptyString.
Proof.
  intros H. unfold QString.section_last, QString.section_but_last.
  now rewrite (split_clean sep s H).
Qed.

(** ** The file list *)

(** X1.  [SetFilenames] appends one row per file name, in the order given,
    after the rows the list already has; it drops no name and merges no
    repeated one.  The name column of a new row holds no slash.  For a file
    name with a slash the path column, a slash and the name column spell
    the file name; a file name without a slash is shown as the name with an
    empty path. *)
Theorem set_filenames_appends_rows (filenames : list string) (d : Dialog) :
  let d' := SetFilenames filenames d in
  List.map user_data (files d')
  = (List.map user_data (files d) ++ filenames)%list /\
  take (length (files d)) (files d') = files d /\
  forall f, f ∈ drop (length (files d)) (files d') ->
    contains QString.slash (file_name f) = false /\
    (contains QString.slash (user_data f) = true ->
     String.append (file_path f) (String.append "/" (file_name f))
     = user_data f) /\
    (contains QString.slash (user_data f) = false ->
     file_name f = user_data f /\ file_path f = EmptyString).
Proof.
  intros d'.
  assert (E : files d'
              = (files d ++
                 List.map
                   (fun filename =>
                      mkFile (QString.section_last QString.slash filename)
                        (QString.section_but_last QString.slash filename)
                        filename) filenames)%list)
    by now destruct d.
  rewrite E. split; [|split].
  - rewrite List.map_app, List.map_map. simpl. now rewrite List.map_id.
  - now rewrite take_app_length.
  - intros f Hf. rewrite drop_app_length in Hf.
    apply list_elem_of_In, in_map_iff in Hf as (filename & <- & _). simpl.
    split; [apply section_last_clean|]. split.
    + apply (section_round_trip QString.slash).
    + apply section_no_sep.
Qed.

Lemma remove_rows_sublist selected (l : list file_item) :
  forall i, remove_rows selected i l `sublist_of` l.
Proof.
  induction l as [|f l IH]; intros i; simpl; [constructor|].
  destruct (existsb (Nat.eqb i) selected).
  - apply sublist_cons, IH.
  - apply sublist_skip, IH.
Qed.

Lemma remove_rows_length selected (l : list file_item) :
  forall i,
    (length (remove_rows selected i l)
     + length (List.filter (fun j => existsb (Nat.eqb j) selected)
                 (seq i (length l)))
     = length l)%nat.
Proof.
  induction l as [|f l IH]; intros i; simpl; [reflexivity|].
  specialize (IH (S i)).
  destruct (existsb (Nat.eqb i) selected); simpl; lia.
Qed.

Lemma existsb_eqb_elem (i : nat) (selected : list nat) :
  existsb (Nat.eqb i) selected = true <-> i ∈ selected.
Proof.
  rewrite existsb_exists, list_elem_of_In. split.
  - intros (j & Hj & E). apply Nat.eqb_eq in E. now subst.
  - intros H. exists i. split; [exact H | apply Nat.eqb_refl].
Qed.

Lemma remove_rows_keeps selected (l : list file_item) :
  forall i k f,
    l !! k = Some f -> (i + k)%nat ∉ selected ->
    f ∈ remove_rows selected i l.
Proof.
  induction l as [|g l IH]; intros i k f Hk Hn; [discriminate|].
  simpl. destruct k as [|k]; simpl in Hk.
  - injection Hk as ->. rewrite Nat.add_0_r in Hn.
    destruct (existsb (Nat.eqb i) selected) eqn:E.
    + apply existsb_eqb_elem in E. contradiction.
    + apply elem_of_cons. now left.
  - assert (f ∈ remove_rows selected (S i) l).
    { apply (IH (S i) k); [exact Hk|].
      now replace (S i + k)%nat with (i + S k)%nat by lia. }
    destruct (existsb (Nat.eqb i) selected); [assumption|].
    apply elem_of_cons. now right.
Qed.

Lemma remove_rows_none (l : list file_item) :
  forall i, remove_rows [] i l = l.
Proof. induction l as [|f l IH]; intros i; simpl; [|rewrite IH]; auto. Qed.

Lemma remove_rows_before (l : list file_item) j :
  forall i, (j < i)%nat -> remove_rows [j] i l = l.
Proof.
  induction l as [|f l IH]; intros i H; simpl; [reflexivity|].
  replace (Nat.eqb i j) with false by (symmetry; apply Nat.eqb_neq; lia).
  simpl. rewrite IH by lia. reflexivity.
Qed.

Lemma remove_rows_single (l : list file_item) :
  forall i k, remove_rows [(i + k)%nat] i l = delete k l.
Proof.
  induction l as [|f l IH]; intros i k; simpl; [now destruct k|].
  destruct k as [|k].
  - rewrite Nat.add_0_r, Nat.eqb_refl. simpl.
    apply remove_rows_before. lia.
  - replace (Nat.eqb i (i + S k)) with false
      by (symmetry; apply Nat.eqb_neq; lia).
    simpl. replace (i + S k)%nat with (S i + k)%nat by lia.
    now rewrite IH.
Qed.

(** X2.  [Remove] deletes the selected rows and nothing else: the rows
    left are rows of the old list in their old order, every row that was
    not selected is still there, and the list is shorter by the number of
    selected rows that exist.  With one row selected that row is deleted,
    with none the list is unchanged.  Nothing but the file list changes:
    the calls on the engine, the three counters, the settings, the progress
    bar and the status text, the two choosers, the log, the timer and the
    working widgets and the two remembered folders are as before. *)
Theorem remove_deletes_selected_rows (selected : list nat) (d : Dialog) :
  let d' := Remove selected d in
  files d' `sublist_of` files d /\
  (length (files d') + length (selected_rows selected (length (files d)))
   = length (files d))%nat /\
  (forall i f, files d !! i = Some f -> i ∉ selected -> f ∈ files d') /\
  (forall i, files (Remove [i] d) = delete i (files d)) /\
  Remove [] d = d /\
  transcoder_ d' = transcoder_ d /\
  queued_ d' = queued_ d /\
  finished_success_ d' = finished_success_ d /\
  finished_failed_ d' = finished_failed_ d /\
  settings d' = settings d /\
  progress_bar d' = progress_bar d /\
  progress_text d' = progress_text d /\
  format d' = format d /\
  destination d' = destination d /\
  log d' = log d /\
  progress_timer_ d' = progress_timer_ d /\
  widgets d' = widgets d /\
  last_add_dir_ d' = last_add_dir_ d /\
  last_import_dir_ d' = last_import_dir_ d.
Proof.
  intros d'. assert (E : files d' = remove_rows selected 0 (files d))
    by now destruct d.
  rewrite E. split; [apply remove_rows_sublist|].
  split; [apply remove_rows_length|].
  split; [intros i f Hi Hn; now apply (remove_rows_keeps selected _ 0%nat i)|].
  split.
  - intros i. replace (files (Remove [i] d))
      with (remove_rows [(0 + i)%nat] 0 (files d)) by now destruct d.
    apply remove_rows_single.
  - split.
    + unfold Remove. rewrite remove_rows_none. now destruct d.
    + now destruct d.
Qed.

Lemma remove_deletes_witness :
  files (Remove [0%nat; 5%nat] Sample.loaded)
  = [mkFile "b.c.wav" "/home/u" "/home/u/b.c.wav"] /\
  mkFile "b.c.wav" "/home/u" "/home/u/b.c.wav"
  ∈ files (Remove [0%nat; 5%nat] Sample.loaded).
Proof.
  split; [reflexivity|].
  destruct (remove_deletes_selected_rows [0%nat; 5%nat] Sample.loaded)
    as (_ & _ & K & _).
  apply (K 1%nat); [reflexivity|].
  intros H. apply list_elem_of_In in H. simpl in H.
  destruct H as [H|[H|[]]]; discriminate.
Defined.

Lemma set_filenames_witness :
  let d' := SetFilenames ["/home/u/c.flac"] Sample.loaded in
  let f := mkFile "c.flac" "/home/u" "/home/u/c.flac" in
  List.map user_data (files d')
  = ["/home/u/a.wav"; "/home/u/b.c.wav"; "/home/u/c.flac"] /\
  f ∈ drop (length (files Sample.loaded)) (files d') /\
  String.append (file_path f) (String.append "/" (file_name f))
  = user_data f.
Proof.
  destruct (set_filenames_appends_rows ["/home/u/c.flac"] Sample.loaded)
    as (A & _ & B).
  cbv zeta. split; [rewrite A; reflexivity|].
  assert (Hf : mkFile "c.flac" "/home/u" "/home/u/c.flac"
               ∈ drop (length (files Sample.loaded))
                   (files (SetFilenames ["/home/u/c.flac"] Sample.loaded))).
  { apply list_elem_of_In. simpl. now left. }
  split; [exact Hf|].
  destruct (B _ Hf) as (_ & R & _). apply R. reflexivity.
Defined.

(** ** Working and idle *)

Lemma SetWorking_consistent (working : bool) (d : Dialog) :
  working_consistent (SetWorking working d).
Proof. destruct working; repeat split. Qed.

Lemma handle_consistent (P : Platform) (e : event P) (d : Dialog) :
  working_consistent d -> working_consistent (handle P e d).
Proof.
  intros H. destruct e; simpl.
  - destruct filenames; [exact H | now destruct d].
  - destruct path; [exact H | now destruct d].
  - now destruct d.
  - unfold Start. destruct (Z.of_nat (length (files d)) =? 0); [exact H|].
    pose proof (SetWorking_consistent true d) as C.
    unfold working_consistent in *. cbn [widgets progress_timer_ with_settings
      with_transcoder UpdateStatusText with_progress_text with_counters
      with_progress_bar]. exact C.
  - unfold Cancel. apply SetWorking_consistent.
  - exact H.
  - now destruct d.
  - now destruct d.
  - now destruct d.
  - now destruct d.
  - apply SetWorking_consistent.
  - unfold timerEvent. destruct (_ =? _); [now destruct d | exact H].
Qed.

(** X3.  In every state the dialog reaches from its constructor, whatever
    the events, the widgets agree with the progress timer: the cancel
    button is shown exactly while the timer runs, and the start button, the
    close button and the input and output groups are available exactly
    while it does not. *)
Theorem widgets_follow_timer (P : Platform) (form : Form)
    (all_presets : list TranscoderPreset) (stored : gmap string string)
    (home : string) (events : list (event P)) :
  working_consistent
    (run P events (TranscodeDialog P form all_presets stored home)).
Proof.
  assert (H0 : working_consistent
                 (TranscodeDialog P form all_presets stored home))
    by (repeat split).
  revert H0. generalize (TranscodeDialog P form all_presets stored home).
  induction events as [|e events IH]; intros d H; simpl; [exact H|].
  apply IH. now apply handle_consistent.
Qed.

(** X4.  Once working has ended, by [Cancel] or by the engine's
    [AllJobsComplete], the progress timer is stopped, and a timer event
    that still arrives, or one of any other timer (identifiers of running
    timers are never 0), leaves the whole dialog as it is.  [Cancel] makes
    one call of the engine's [Cancel] and keeps counters and progress bar,
    so the tally of the aborted run stays on display. *)
Theorem stopped_timer_is_ignored (P : Platform) (d : Dialog) (id : Z)
    (report : list (QUrl * float P)) :
  id <> 0 ->
  handle P (TimerEvent id report) (handle P CancelClicked d)
  = handle P CancelClicked d /\
  handle P (TimerEvent id report) (handle P EngineAllJobsComplete d)
  = handle P EngineAllJobsComplete d /\
  transcoder_ (handle P CancelClicked d)
  = (transcoder_ d ++ [EngineCancel])%list /\
  transcoder_ (handle P EngineAllJobsComplete d) = transcoder_ d /\
  progress_bar (handle P CancelClicked d) = progress_bar d /\
  queued_ (handle P CancelClicked d) = queued_ d /\
  finished_success_ (handle P CancelClicked d) = finished_success_ d /\
  finished_failed_ (handle P CancelClicked d) = finished_failed_ d.
Proof.
  intros Hid. apply Z.eqb_neq in Hid.
  split; [|split].
  - simpl. unfold timerEvent.
    replace (QBasicTimer.timerId (progress_timer_ (Cancel d))) with 0
      by now destruct d.
    now rewrite Hid.
  - simpl. unfold timerEvent.
    replace (QBasicTimer.timerId (progress_timer_ (AllJobsComplete d))) with 0
      by now destruct d.
    now rewrite Hid.
  - now destruct d.
Qed.

Lemma stopped_timer_witness :
  handle Sample.platform (TimerEvent (P:=Sample.platform) 1 Sample.busy)
    (handle Sample.platform CancelClicked Sample.running)
  = handle Sample.platform CancelClicked Sample.running /\
  QProgressBar.value
    (progress_bar
       (handle Sample.platform (TimerEvent (P:=Sample.platform) 1 Sample.busy)
          (handle Sample.platform CancelClicked Sample.running)))
  = 0.
Proof.
  destruct (stopped_timer_is_ignored Sample.platform Sample.running 1
              Sample.busy) as (A & _).
  - discriminate.
  - split; [exact A|]. rewrite A. reflexivity.
Defined.

(** ** Calls on the engine *)

(** X5.  The dialog only ever adds to what it has asked of the engine, and
    only [Start] puts work on it: every event appends its calls to those
    made before, and the calls of every event other than a click on the
    start button hold neither an [AddJob] nor the engine's [Start]. *)
Theorem only_start_submits (P : Platform) (e : event P) (d : Dialog) :
  exists calls,
    transcoder_ (handle P e d) = (transcoder_ d ++ calls)%list /\
    (is_start e = false ->
     List.filter is_submission calls = [] /\
     List.filter is_submission (transcoder_ (handle P e d))
     = List.filter is_submission (transcoder_ d)).
Proof.
  assert (Hnil : forall d', transcoder_ d' = transcoder_ d ->
            exists calls,
              transcoder_ d' = (transcoder_ d ++ calls)%list /\
              (is_start e = false ->
               List.filter is_submission calls = [] /\
               List.filter is_submission (transcoder_ d')
               = List.filter is_submission (transcoder_ d))).
  { intros d' E. exists []. rewrite E, app_nil_r. auto. }
  destruct e; simpl handle.
  - apply Hnil. destruct filenames; now destruct d.
  - apply Hnil. destruct path; now destruct d.
  - apply Hnil. now destruct d.
  - destruct (files d) eqn:F.
    + apply Hnil. unfold Start. now rewrite F.
    + exists (List.map (job_of P d) (files d) ++ [EngineStart])%list.
      split; [|discriminate].
      apply Start_calls. rewrite F. discriminate.
  - exists [EngineCancel]. split; [now destruct d|].
    intros _. split; [reflexivity|].
    replace (transcoder_ (Cancel d)) with (transcoder_ d ++ [EngineCancel])%list
      by now destruct d.
    rewrite List.filter_app. simpl. now rewrite app_nil_r.
  - apply Hnil. reflexivity.
  - apply Hnil. now destruct d.
  - exists (List.map DumpGraph ids). split; [now destruct d|].
    intros _.
    assert (N : List.filter is_submission (List.map DumpGraph ids) = []).
    { induction ids; simpl; auto. }
    split; [exact N|].
    replace (transcoder_ (PipelineDumpAction ids d))
      with (transcoder_ d ++ List.map DumpGraph ids)%list by now destruct d.
    rewrite List.filter_app, N. now rewrite app_nil_r.
  - apply Hnil. now destruct d.
  - apply Hnil. now destruct d.
  - apply Hnil. now destruct d.
  - apply Hnil. unfold timerEvent. destruct (_ =? _); now destruct d.
Qed.

Lemma only_start_submits_witness :
  List.filter is_submission
    (transcoder_
       (handle Sample.platform (DumpGraphTriggered [3; 4]) Sample.running))
  = List.filter is_submission (transcoder_ Sample.running).
Proof.
  destruct (only_start_submits Sample.platform (DumpGraphTriggered [3; 4])
              Sample.running) as (calls & _ & H).
  apply H. reflexivity.
Defined.

(** ** The progress bar during a run *)

Lemma setValue_within lo hi v pb :
  0 < hi -> bar_within lo hi pb ->
  bar_within lo hi (QProgressBar.setValue v pb).
Proof.
  intros Hhi (Hmin & Hmax & Hv). unfold QProgressBar.setValue.
  destruct (QProgressBar.value pb =? v);
    [exact (conj Hmin (conj Hmax Hv))|].
  replace ((QProgressBar.maximum pb =? 0) && (QProgressBar.minimum pb =? 0))
    with false
    by (symmetry; apply andb_false_iff; left; apply Z.eqb_neq; lia).
  cbn [negb]. rewrite andb_true_r.
  destruct ((v >? QProgressBar.maximum pb) || (v <? QProgressBar.minimum pb))
    eqn:E; [exact (conj Hmin (conj Hmax Hv))|].
  apply orb_false_iff in E as [E1 E2].
  rewrite Z.gtb_ltb in E1. apply Z.ltb_ge in E1. apply Z.ltb_ge in E2.
  repeat split; simpl; auto; lia.
Qed.

Lemma handle_bar_within (P : Platform) (e : event P) (d : Dialog) lo hi :
  is_start e = false -> 0 < hi ->
  bar_within lo hi (progress_bar d) ->
  bar_within lo hi (progress_bar (handle P e d)).
Proof.
  intros Hs Hhi H. destruct e; simpl handle; try discriminate.
  - destruct filenames; [exact H | now destruct d].
  - destruct path; [exact H | now destruct d].
  - now destruct d.
  - now destruct d.
  - exact H.
  - now destruct d.
  - now destruct d.
  - replace (progress_bar (JobComplete P input output success current_jobs d))
      with (QProgressBar.setValue
              (add_progress P
                 (Int.mul
                    (Int.add
                       (if success then Int.add (finished_success_ d) 1
                        else finished_success_ d)
                       (if success then finished_failed_ d
                        else Int.add (finished_failed_ d) 1)) 100)
                 (List.map snd current_jobs))
              (progress_bar d))
      by now destruct d.
    now apply setValue_within.
  - now destruct d.
  - now destruct d.
  - unfold timerEvent. destruct (_ =? _); [|exact H].
    replace (progress_bar (UpdateProgress P current_jobs d))
      with (QProgressBar.setValue
              (add_progress P
                 (Int.mul (Int.add (finished_success_ d) (finished_failed_ d))
                    100)
                 (List.map snd current_jobs))
              (progress_bar d))
      by now destruct d.
    now apply setValue_within.
Qed.

Lemma run_bar_within (P : Platform) (events : list (event P)) lo hi :
  forall d,
    forallb (fun e => negb (is_start e)) events = true -> 0 < hi ->
    bar_within lo hi (progress_bar d) ->
    bar_within lo hi (progress_bar (run P events d)).
Proof.
  induction events as [|e events IH]; intros d Hs Hhi H; [exact H|].
  simpl in Hs. apply andb_true_iff in Hs as [He Hs].
  apply negb_true_iff in He.
  change (run P (e :: events) d) with (run P events (handle P e d)).
  apply IH; auto. now apply handle_bar_within.
Qed.

Lemma Start_bar_within (P : Platform) (d : Dialog) :
  files d <> [] -> row_count d * 100 <= Int.INT_MAX ->
  QProgressBar.minimum (progress_bar d) <= 0
    <= QProgressBar.maximum (progress_bar d) ->
  progress_bar (Start P d)
  = QProgressBar.mk (QProgressBar.minimum (progress_bar d))
      (row_count d * 100) 0 /\
  0 < row_count d * 100.
Proof.
  intros Hf Hn Hbar.
  assert (Hpos : 0 < row_count d).
  { unfold row_count. destruct (files d); [congruence | simpl; lia]. }
  split; [|lia].
  rewrite Start_progress_bar by exact Hf.
  unfold Int.mul. rewrite wrap_in_range
    by (unfold Int.in_range, Int.INT_MIN, Int.INT_MAX in *; lia).
  rewrite setValue_in_range by exact Hbar.
  apply setMaximum_after_zero; [exact Hbar | lia].
Qed.

(** X6.  During a run the progress bar never leaves its range.  After a
    [Start] on [n] > 0 files the bar ranges up to [n * 100], and whatever
    events follow until the next [Start], however many [JobComplete]
    notifications there are and whatever progress the engine reports with
    them, the range stays the same and the value shown stays within it: a
    computed progress outside the range is not displayed. *)
Theorem progress_bar_stays_in_range (P : Platform) (d : Dialog)
    (events : list (event P)) :
  files d <> [] ->
  row_count d * 100 <= Int.INT_MAX ->
  QProgressBar.minimum (progress_bar d) <= 0
    <= QProgressBar.maximum (progress_bar d) ->
  forallb (fun e => negb (is_start e)) events = true ->
  let bar := progress_bar (run P events (Start P d)) in
  QProgressBar.maximum bar = row_count d * 100 /\
  QProgressBar.minimum bar = QProgressBar.minimum (progress_bar d) /\
  QProgressBar.minimum bar <= QProgressBar.value bar
    <= QProgressBar.maximum bar.
Proof.
  intros Hf Hn Hbar Hs bar.
  destruct (Start_bar_within P d Hf Hn Hbar) as [E Hpos].
  destruct (run_bar_within P events
              (QProgressBar.minimum (progress_bar d)) (row_count d * 100)
              (Start P d) Hs Hpos) as (A & B & C).
  - rewrite E. repeat split; simpl; lia.
  - fold bar in A, B, C. rewrite A, B. auto.
Qed.

Lemma progress_bar_in_range_witness :
  let bar :=
    progress_bar
      (run Sample.platform
         [EngineJobComplete (P:=Sample.platform) (fromLocalFile "/x") "/y"
            true [(fromLocalFile "/a", 990); (fromLocalFile "/b", 990)]]
         (Start Sample.platform Sample.loaded)) in
  QProgressBar.maximum bar = 200 /\ QProgressBar.value bar = 0.
Proof.
  destruct (progress_bar_stays_in_range Sample.platform Sample.loaded
              [EngineJobComplete (P:=Sample.platform) (fromLocalFile "/x")
                 "/y" true
                 [(fromLocalFile "/a", 990); (fromLocalFile "/b", 990)]])
    as (A & _).
  - discriminate.
  - vm_compute. discriminate.
  - split; vm_compute; discriminate.
  - reflexivity.
  - cbv zeta. split; [rewrite A; reflexivity | reflexivity].
Defined.

Lemma JobComplete_exact (P : Platform) input output success report d :
  Int.INT_MIN < queued_ d <= Int.INT_MAX ->
  Int.INT_MIN <= finished_success_ d < Int.INT_MAX ->
  Int.INT_MIN <= finished_failed_ d < Int.INT_MAX ->
  let d' := JobComplete P input output success report d in
  queued_ d' = queued_ d - 1 /\
  finished_success_ d' = finished_success_ d + (if success then 1 else 0) /\
  finished_failed_ d' = finished_failed_ d + (if success then 0 else 1).
Proof.
  intros Hq Hs Hf d'.
  destruct (JobComplete_counters P input output success report d)
    as (Eq & Es & Ef). fold d' in Eq, Es, Ef.
  rewrite Eq, Es, Ef. unfold Int.sub, Int.add.
  rewrite !wrap_in_range by (unfold Int.in_range; lia).
  destruct success; repeat split; lia.
Qed.

(** X7.  When the last of the [n] jobs of a run completes and the engine
    reports no job in flight any more, the progress bar is full: after
    [Start] on [n] files and events holding [n - 1] notifications, a
    further [JobComplete] with an empty progress map leaves [queued_] at 0
    and the bar at its maximum [n * 100], whatever the mix of successes and
    failures. *)
Theorem last_completion_fills_bar (P : Platform) (d : Dialog)
    (events : list (event P)) (input : QUrl) (output : string)
    (success : bool) :
  files d <> [] ->
  row_count d * 100 <= Int.INT_MAX ->
  QProgressBar.minimum (progress_bar d) <= 0
    <= QProgressBar.maximum (progress_bar d) ->
  forallb (fun e => negb (is_start e)) events = true ->
  completions events = row_count d - 1 ->
  let d' :=
    run P (events ++ [EngineJobComplete input output success []])
      (Start P d) in
  queued_ d' = 0 /\
  finished_success_ d' + finished_failed_ d' = row_count d /\
  QProgressBar.value (progress_bar d') = row_count d * 100 /\
  QProgressBar.maximum (progress_bar d') = row_count d * 100.
Proof.
  intros Hf Hn Hbar Hs Hc d'.
  destruct (Start_counters P d Hf) as (Eq & Es & Ef).
  destruct (Start_bar_within P d Hf Hn Hbar) as [E Hpos].
  assert (Hmax : row_count d <= Int.INT_MAX)
    by (unfold Int.INT_MAX in *; lia).
  set (n := row_count d) in *.
  set (d1 := run P events (Start P d)).
  assert (Hd' : d' = JobComplete P input output success [] d1).
  { unfold d', d1, run. now rewrite List.fold_left_app. }
  assert (K : queued_ d1 = queued_ (Start P d) - completions events /\
              0 <= finished_success_ d1 /\ 0 <= finished_failed_ d1 /\
              queued_ d1 + finished_success_ d1 + finished_failed_ d1 = n).
  { apply (run_keeps_sum P n events (Start P d)); auto; lia. }
  destruct K as (A & B & C & D). rewrite Eq, Hc in A.
  assert (W : bar_within (QProgressBar.minimum (progress_bar d)) (n * 100)
                (progress_bar d1)).
  { apply run_bar_within; auto. rewrite E. repeat split; simpl; lia. }
  destruct W as (Bmin & Bmax & Bval).
  destruct (JobComplete_exact P input output success [] d1)
    as (Q & S & F); [unfold Int.INT_MAX, Int.INT_MIN in *; lia..|].
  rewrite <- Hd' in Q, S, F.
  assert (Hsum : finished_success_ d' + finished_failed_ d' = n)
    by (rewrite S, F; destruct success; lia).
  split; [rewrite Q; lia|]. split; [exact Hsum|].
  assert (Hbar' : progress_bar d'
                  = QProgressBar.setValue
                      (add_progress P
                         (Int.mul
                            (Int.add (finished_success_ d')
                               (finished_failed_ d')) 100) [])
                      (progress_bar d1)).
  { rewrite Hd'. now destruct d1. }
  rewrite Hbar'. simpl add_progress. unfold Int.add, Int.mul. rewrite Hsum.
  rewrite (wrap_in_range n)
    by (unfold Int.in_range, Int.INT_MIN, Int.INT_MAX in *; lia).
  rewrite wrap_in_range
    by (unfold Int.in_range, Int.INT_MIN, Int.INT_MAX in *; lia).
  rewrite setValue_in_range by lia. simpl. auto.
Qed.

Lemma last_completion_witness :
  let d' :=
    run Sample.platform
      ([EngineJobComplete (P:=Sample.platform) (fromLocalFile "/home/u/a.wav")
          "/home/u/a.ogg" false Sample.busy]
       ++ [EngineJobComplete (P:=Sample.platform)
             (fromLocalFile "/home/u/b.c.wav") "/home/u/b.c.ogg" true []])
      (Start Sample.platform Sample.loaded) in
  queued_ d' = 0 /\ QProgressBar.value (progress_bar d') = 200.
Proof.
  destruct (last_completion_fills_bar Sample.platform Sample.loaded
              [EngineJobComplete (P:=Sample.platform)
                 (fromLocalFile "/home/u/a.wav") "/home/u/a.ogg" false
                 Sample.busy]
              (fromLocalFile "/home/u/b.c.wav") "/home/u/b.c.ogg" true)
    as (A & _ & B & _).
  - discriminate.
  - vm_compute. discriminate.
  - split; vm_compute; discriminate.
  - reflexivity.
  - reflexivity.
  - cbv zeta. split; [exact A | rewrite B; reflexivity].
Defined.

(** ** Settings across restarts *)

Lemma Start_settings (P : Platform) (d : Dialog) :
  files d <> [] ->
  settings (Start P d)
  = QSettings.setValue kSettingsGroup "last_output_format"
      (codec_mimetype_ (selected_preset d)) (settings d).
Proof.
  intros Hf. pose proof (Start_nonempty P d Hf) as E. unfold row_count in E.
  unfold Start. rewrite E. cbn [settings with_settings].
  unfold selected_preset.
  replace (format (SetWorking true d)) with (format d)
    by (destruct d; reflexivity).
  now destruct d.
Qed.

(** X8.  The folders of the file dialogs survive a restart.  What [Add]
    and [Import] store is what the constructor reads back: a dialog built
    from the settings left by an [Add] of files and an [Import] of a folder
    (with or without audio files in it) starts with [last_add_dir_] the
    first file added and [last_import_dir_] the folder imported.  Built from
    settings that hold neither key, it starts both at the home path. *)
Theorem directories_survive_restart (P : Platform) (form : Form)
    (all_presets : list TranscoderPreset) (home : string) (d : Dialog)
    (first : string) (rest : list string) (path : string)
    (found : list string) :
  path <> EmptyString ->
  let stored :=
    settings
      (handle P (ImportClicked path found)
         (handle P (AddClicked (first :: rest)) d)) in
  let d' := TranscodeDialog P form all_presets stored home in
  last_add_dir_ d' = first /\ last_import_dir_ d' = path /\
  forall stored0 : gmap string string,
    stored0 !! setting "last_add_dir" = None ->
    stored0 !! setting "last_import_dir" = None ->
    last_add_dir_ (TranscodeDialog P form all_presets stored0 home) = home /\
    last_import_dir_ (TranscodeDialog P form all_presets stored0 home) = home.
Proof.
  intros Hp stored d'.
  assert (E : stored
              = <[setting "last_import_dir" := path]>
                  (<[setting "last_add_dir" := first]> (settings d))).
  { unfold stored. simpl. destruct path; [congruence|]. now destruct d. }
  split; [|split].
  - unfold d', TranscodeDialog. cbn [last_add_dir_].
    unfold QSettings.value. fold (setting "last_add_dir"). rewrite E.
    rewrite lookup_insert_ne by (vm_compute; discriminate).
    now rewrite lookup_insert_eq.
  - unfold d', TranscodeDialog. cbn [last_import_dir_].
    unfold QSettings.value. fold (setting "last_import_dir"). rewrite E.
    now rewrite lookup_insert_eq.
  - intros stored0 Ha Hi. unfold TranscodeDialog.
    cbn [last_add_dir_ last_import_dir_]. unfold QSettings.value.
    fold (setting "last_add_dir") (setting "last_import_dir").
    now rewrite Ha, Hi.
Qed.

Lemma directories_survive_witness :
  let stored :=
    settings
      (handle Sample.platform (ImportClicked "/music" [])
         (handle Sample.platform (AddClicked Sample.two_files)
            Sample.fresh)) in
  let d' :=
    TranscodeDialog Sample.platform Sample.form Sample.presets stored
      "/home/u" in
  last_add_dir_ d' = "/home/u/a.wav" /\ last_import_dir_ d' = "/music" /\
  last_add_dir_ Sample.fresh = "/home/u".
Proof.
  destruct (directories_survive_restart Sample.platform Sample.form
              Sample.presets "/home/u" Sample.fresh "/home/u/a.wav"
              ["/home/u/b.c.wav"] "/music" [])
    as (A & B & C); [discriminate|].
  cbv zeta. split; [exact A|]. split; [exact B|].
  apply (C ∅); reflexivity.
Defined.

Lemma first_match (m : string) (l : list TranscoderPreset) :
  (exists p, p ∈ l /\ codec_mimetype_ p = m) ->
  exists (i : nat) p,
    l !! i = Some p /\ codec_mimetype_ p = m /\
    forall (j : nat) q, (j < i)%nat -> l !! j = Some q ->
      codec_mimetype_ q <> m.
Proof.
  induction l as [|x l IH]; intros (p & Hin & Hp).
  - apply elem_of_nil in Hin. contradiction.
  - destruct (string_dec (codec_mimetype_ x) m) as [Hx|Hx].
    + exists 0%nat, x. repeat split; auto. intros j q Hj. lia.
    + apply elem_of_cons in Hin as [->|Hin]; [contradiction|].
      destruct IH as (i & y & Hi & Hy & Hbefore); [now exists p|].
      exists (S i), y. repeat split; auto.
      intros [|j] q Hj Hq; simpl in Hq.
      * now injection Hq as <-.
      * apply (Hbefore j q); [lia | exact Hq].
Qed.

Lemma constructor_selects (P : Platform) form all_presets stored home
    (i : nat) p :
  form_format form = QComboBox.mk [] (-1) ->
  let presets := std_sort P ComparePresetsByName all_presets in
  presets !! i = Some p ->
  codec_mimetype_ p = last_output_format stored ->
  (forall (j : nat) q, (j < i)%nat -> presets !! j = Some q ->
     codec_mimetype_ q <> last_output_format stored) ->
  selected_preset (TranscodeDialog P form all_presets stored home) = p.
Proof.
  intros Hform presets Hi Hp Hbefore.
  pose proof (constructor_format P form all_presets stored home Hform) as F.
  cbv zeta in F. fold presets in F.
  set (cb0 := QComboBox.mk (List.map format_item presets)
                (match presets with [] => -1 | _ => 0 end)) in F.
  pose proof (take_drop_middle presets i p Hi) as Hsplit.
  pose proof (lookup_lt_Some _ _ _ Hi) as Hlt.
  assert (E : QComboBox.items cb0
              = ([] ++ List.map format_item (take i presets)
                 ++ format_item p
                 :: List.map format_item (drop (S i) presets))%list).
  { simpl. rewrite <- Hsplit at 1. now rewrite List.map_app. }
  pose proof (select_format_first (last_output_format stored) cb0 _ [] _
                (format_item p) E) as Hsf.
  change (Z.of_nat (length (@nil QComboBox.item))) with 0 in Hsf.
  replace (length (List.map format_item (take i presets)
                   ++ format_item p
                   :: List.map format_item (drop (S i) presets))%list)
    with (length presets) in Hsf.
  2:{ simpl in E. rewrite <- E. simpl. now rewrite length_map. }
  rewrite Hsf in F.
  - unfold selected_preset. rewrite F. cbn [QComboBox.currentIndex].
    simpl length. rewrite length_map, length_take_le by lia.
    destruct (itemData_at
                (QComboBox.mk (QComboBox.items cb0) (Z.of_nat (0 + i)))
                (List.map format_item (take i presets))
                (List.map format_item (drop (S i) presets))
                (format_item p) E) as [_ D].
    rewrite length_map, length_take_le in D by lia.
    simpl. simpl in D. now rewrite D.
  - intros x Hx. apply list_elem_of_In, in_map_iff in Hx as (q & <- & Hq).
    apply list_elem_of_In, list_elem_of_lookup in Hq as [j Hj].
    apply lookup_take_Some in Hj as [Hj Hji]. simpl. eauto.
  - exact Hp.
Qed.

(** X9.  The output format survives a restart.  After a [Start] on a list
    that is not empty, a dialog built from the settings that [Start] left
    (with the same presets, the one used among them) has a preset of the
    same codec mimetype selected; when no two presets share a mimetype it
    is the very preset the run used. *)
Theorem format_survives_restart (P : Platform) (form : Form)
    (all_presets : list TranscoderPreset) (home : string) (d : Dialog) :
  form_format form = QComboBox.mk [] (-1) ->
  sorts P ComparePresetsByName all_presets ->
  files d <> [] ->
  selected_preset d ∈ all_presets ->
  let stored := settings (handle P StartClicked d) in
  let d' := TranscodeDialog P form all_presets stored home in
  selected_preset d' ∈ all_presets /\
  codec_mimetype_ (selected_preset d') = codec_mimetype_ (selected_preset d) /\
  ((forall p q, p ∈ all_presets -> q ∈ all_presets ->
      codec_mimetype_ p = codec_mimetype_ q -> p = q) ->
   selected_preset d' = selected_preset d).
Proof.
  intros Hform [Hperm _] Hf Hin stored d'.
  set (m := codec_mimetype_ (selected_preset d)).
  assert (Hlast : last_output_format stored = m).
  { unfold stored, last_output_format, QSettings.value. simpl handle.
    rewrite Start_settings by exact Hf. now rewrite lookup_setValue. }
  set (presets := std_sort P ComparePresetsByName all_presets) in *.
  destruct (first_match m presets) as (i & p & Hi & Hp & Hbefore).
  { exists (selected_preset d). split; [|reflexivity].
    now rewrite Hperm. }
  assert (Hsel : selected_preset d' = p).
  { apply (constructor_selects P form all_presets stored home i p Hform).
    - exact Hi.
    - now rewrite Hlast.
    - rewrite Hlast. exact Hbefore. }
  rewrite Hsel.
  assert (Hp_in : p ∈ all_presets).
  { rewrite <- Hperm. apply list_elem_of_lookup. now exists i. }
  split; [exact Hp_in|]. split; [exact Hp|].
  intros Huniq. apply Huniq; auto.
Qed.

Lemma format_survives_witness :
  let d := AddDestination "/tmp" Sample.loaded in
  let stored := settings (handle Sample.platform StartClicked d) in
  selected_preset
    (TranscodeDialog Sample.platform Sample.form Sample.presets stored "/h")
  = selected_preset d.
Proof.
  destruct (format_survives_restart Sample.platform Sample.form
              Sample.presets "/h" (AddDestination "/tmp" Sample.loaded)
              eq_refl (insertion_sort_sorts Sample.presets))
    as (_ & _ & U).
  - discriminate.
  - apply list_elem_of_In. vm_compute. auto.
  - apply U. intros p q Hp Hq.
    apply list_elem_of_In in Hp. apply list_elem_of_In in Hq.
    simpl in Hp, Hq.
    destruct Hp as [<-|[<-|[<-|[<-|[]]]]];
      destruct Hq as [<-|[<-|[<-|[<-|[]]]]];
      try reflexivity; vm_compute; discriminate.
Defined.

(** ** More on the destination box *)

Lemma remove_oldest_head fuel :
  forall cb,
    QComboBox.items (remove_oldest fuel cb) !! 0%nat
    = QComboBox.items cb !! 0%nat.
Proof.
  induction fuel as [|fuel IH]; intros cb; simpl; [reflexivity|].
  destruct (QComboBox.count cb >=? kMaxDestinationItems) eqn:E; [|reflexivity].
  rewrite IH, removeItem_items by now apply full_box_has_oldest.
  change (Z.to_nat 1) with 1%nat.
  now destruct (QComboBox.items cb) as [|a [|b l]].
Qed.

Lemma add_destination_head dir cb it :
  QComboBox.items cb !! 0%nat = Some it ->
  QComboBox.items (add_destination dir cb) !! 0%nat = Some it.
Proof.
  intros H. destruct (string_dec dir EmptyString) as [->|Hd]; [exact H|].
  rewrite add_destination_chosen by exact Hd. cbv zeta.
  pose proof (remove_oldest_head (length (QComboBox.items cb)) cb) as R.
  rewrite H in R.
  destruct (QComboBox.findData _ _ =? -1); simpl; [|exact R].
  destruct (QComboBox.items (remove_oldest _ cb)); [discriminate | exact R].
Qed.

(** X10.  The first entry of the destination box is never evicted: the
    loop that keeps the box within its cap removes the entry at index 1, so
    the entry the form puts first (the choice to write next to the
    originals) is still first after any sequence of [AddDestination]
    actions. *)
Theorem first_destination_survives (dirs : list string) (d : Dialog)
    (it : QComboBox.item) :
  QComboBox.items (destination d) !! 0%nat = Some it ->
  QComboBox.items (destination (add_destinations dirs d)) !! 0%nat = Some it.
Proof.
  revert d. induction dirs as [|dir dirs IH]; intros d H; simpl; [exact H|].
  apply IH. destruct d; simpl in *. now apply add_destination_head.
Qed.

Lemma first_destination_witness :
  QComboBox.items
    (destination
       (add_destinations ("/m/10" :: "/m/11" :: Sample.nine_folders)
          full_history)) !! 0%nat
  = Some (QComboBox.mkItem "Alongside the originals" VNull).
Proof.
  apply (first_destination_survives
           ("/m/10" :: "/m/11" :: Sample.nine_folders) full_history).
  reflexivity.
Defined.

(** X11.  A folder that is not yet in the destination box is appended as
    its last entry, with the folder as text and as data, and selected.
    Below the cap of 10 nothing is removed for it; at the cap exactly the
    entry at index 1, the oldest folder, makes room, so the box stays at 10
    entries. *)
Theorem new_destination_is_appended (dir : string) (d : Dialog) :
  dir <> EmptyString ->
  QComboBox.findData (VString dir) (destination d) = -1 ->
  let cb := destination d in
  let cb' := destination (AddDestination dir d) in
  (QComboBox.count cb < kMaxDestinationItems ->
   cb' = QComboBox.mk
           (QComboBox.items cb ++ [QComboBox.mkItem dir (VString dir)])
           (QComboBox.count cb)) /\
  (QComboBox.count cb = kMaxDestinationItems ->
   cb' = QComboBox.mk
           (delete 1%nat (QComboBox.items cb)
            ++ [QComboBox.mkItem dir (VString dir)])
           (kMaxDestinationItems - 1)).
Proof.
  intros Hd Hno cb cb'.
  assert (E : cb' = add_destination dir cb) by (unfold cb', cb; now destruct d).
  rewrite E, add_destination_chosen by exact Hd. cbv zeta. split.
  - intros Hlt. rewrite remove_oldest_below by exact Hlt.
    fold cb in Hno. rewrite Hno. change (-1 =? -1) with true. cbv iota.
    rewrite count_addItem. rewrite setCurrentIndex_valid.
    + f_equal. lia.
    + unfold QComboBox.valid. rewrite count_addItem. unfold QComboBox.count.
      apply andb_true_iff. split; [apply Z.leb_le | apply Z.ltb_lt]; lia.
  - intros Hcap. rewrite remove_oldest_at_cap by exact Hcap.
    assert (V : QComboBox.valid cb 1 = true).
    { apply full_box_has_oldest. apply Z.geb_le. lia. }
    assert (F : QComboBox.findData (VString dir) (QComboBox.removeItem 1 cb)
                = -1).
    { unfold QComboBox.findData. rewrite removeItem_items by exact V.
      apply find_from_absent. intros Hin.
      apply folders_delete_subset in Hin. revert Hin.
      apply (find_from_missing dir _ 0); [exact Hno | lia]. }
    rewrite F. change (-1 =? -1) with true. cbv iota.
    rewrite count_addItem, removeItem_count by exact V.
    unfold kMaxDestinationItems in *. rewrite setCurrentIndex_valid.
    + f_equal.
      * simpl. now rewrite removeItem_items by exact V.
      * lia.
    + unfold QComboBox.valid.
      rewrite count_addItem, removeItem_count by exact V.
      apply andb_true_iff. split; [apply Z.leb_le | apply Z.ltb_lt]; lia.
Qed.

Lemma new_destination_witness :
  List.map QComboBox.text
    (QComboBox.items (destination (AddDestination "/m/10" full_history)))
  = ["Alongside the originals"; "/m/2"; "/m/3"; "/m/4"; "/m/5"; "/m/6";
     "/m/7"; "/m/8"; "/m/9"; "/m/10"] /\
  QComboBox.currentIndex (destination (AddDestination "/m/10" full_history))
  = 9.
Proof.
  destruct (new_destination_is_appended "/m/10" full_history) as (_ & A).
  - discriminate.
  - reflexivity.
  - cbv zeta in A. rewrite A by reflexivity. split; reflexivity.
Defined.

Lemma folders_delete_gone (l : list QComboBox.item) :
  forall k old f,
    NoDup (omap folder_of l) -> l !! k = Some old -> folder_of old = Some f ->
    f ∉ omap folder_of (delete k l).
Proof.
  induction l as [|it l IH]; intros k old f Hn Hk Hf; [discriminate|].
  destruct k as [|k]; simpl in *.
  - injection Hk as ->. rewrite Hf in Hn. now apply NoDup_cons in Hn as [Hn _].
  - destruct (folder_of it) as [g|] eqn:G.
    + apply NoDup_cons in Hn as [Hg Hn]. rewrite not_elem_of_cons. split.
      * intros ->. apply Hg. apply list_elem_of_omap. exists old.
        split; [|exact Hf]. apply list_elem_of_lookup. now exists k.
      * now apply (IH k old).
    + now apply (IH k old).
Qed.

(** X12.  At the cap the oldest folder is lost even when nothing is added.
    With 10 entries in the box, choosing a folder that is present at an
    index other than 1 selects it, yet the loop at the head of
    [AddDestination] has already removed the entry at index 1: the box is
    left with 9 entries and the folder that entry carried is gone from
    it. *)
Theorem reselecting_at_cap_evicts_oldest (dir : string) (d : Dialog)
    (i : Z) (old : QComboBox.item) (f : string) :
  dir <> EmptyString ->
  QComboBox.count (destination d) = kMaxDestinationItems ->
  NoDup (folders (destination d)) ->
  QComboBox.findData (VString dir) (destination d) = i ->
  i <> -1 -> i <> 1 ->
  QComboBox.items (destination d) !! 1%nat = Some old ->
  folder_of old = Some f ->
  let cb' := destination (AddDestination dir d) in
  QComboBox.count cb' = kMaxDestinationItems - 1 /\
  (f ∉ folders cb') /\
  QComboBox.itemData cb' (QComboBox.currentIndex cb') = VString dir /\
  QComboBox.items cb' = delete 1%nat (QComboBox.items (destination d)).
Proof.
  intros Hd Hcap Hn Hi Hne H1 Hold Hf cb'.
  assert (E : cb' = add_destination dir (destination d))
    by (unfold cb'; now destruct d).
  pose proof (add_destination_current dir (destination d) Hd) as Hcur.
  rewrite <- E in Hcur.
  pose proof (add_destination_present_at_cap dir (destination d) i
                Hd Hcap Hi Hne H1) as A.
  rewrite <- E in A.
  assert (Hitems : QComboBox.items cb'
                   = delete 1%nat (QComboBox.items (destination d)))
    by now rewrite A.
  split; [|split; [|split; [exact Hcur | exact Hitems]]].
  - unfold QComboBox.count, kMaxDestinationItems in *.
    rewrite Hitems, length_delete.
    + lia.
    + rewrite Hold. eauto.
  - unfold folders. rewrite Hitems. now apply (folders_delete_gone _ 1%nat old).
Qed.

Lemma reselecting_at_cap_witness :
  let cb' := destination (AddDestination "/m/5" full_history) in
  QComboBox.count cb' = 9 /\ ("/m/1" ∉ folders cb') /\
  QComboBox.itemData cb' (QComboBox.currentIndex cb') = VString "/m/5".
Proof.
  destruct (reselecting_at_cap_evicts_oldest "/m/5" full_history 5
              (QComboBox.mkItem "/m/1" (VString "/m/1")) "/m/1")
    as (A & B & C & _).
  - discriminate.
  - reflexivity.
  - apply add_destinations_history_ok.
    split; [vm_compute; discriminate | apply NoDup_nil_2].
  - reflexivity.
  - discriminate.
  - discriminate.
  - reflexivity.
  - reflexivity.
  - cbv zeta. split; [exact A|]. split; [exact B | exact C].
Defined.

(** ** Output next to the input *)

Lemma contains_append c a b :
  contains c (String.append a b) = contains c a || contains c b.
Proof.
  induction a as [|x a IH]; simpl; [reflexivity|].
  rewrite IH. now rewrite orb_assoc.
Qed.

Lemma path_of_joined dir name :
  dir <> EmptyString -> contains QString.slash name = false ->
  QFileInfo.path (QFileInfo.mk (String.append dir (String QString.slash name)))
  = dir /\
  QFileInfo.fileName
    (QFileInfo.mk (String.append dir (String QString.slash name)))
  = name.
Proof.
  intros Hd Hn. unfold QFileInfo.path, QFileInfo.fileName, QFileInfo.has_slash,
    QString.section_but_last, QString.section_last.
  cbn [QFileInfo.filePath].
  rewrite split_app_sep, (split_clean _ _ Hn).
  rewrite last_snoc, removelast_snoc, length_app. simpl length.
  pose proof (split_nonempty QString.slash dir) as Hne.
  replace (length (QString.split QString.slash dir) + 1 =? 1)%nat with false.
  - cbn [negb]. rewrite join_split. split; [|reflexivity].
    destruct dir; [congruence | reflexivity].
  - symmetry. apply Nat.eqb_neq.
    destruct (QString.split QString.slash dir); [congruence | simpl; lia].
Qed.

Lemma completeBaseName_of_joined dir base ext :
  dir <> EmptyString ->
  contains QString.slash base = false ->
  contains QString.slash ext = false ->
  contains QString.dot ext = false ->
  QFileInfo.completeBaseName
    (QFileInfo.mk
       (String.append dir
          (String QString.slash
             (String.append base (String QString.dot ext)))))
  = base.
Proof.
  intros Hd Hb He Hdot. unfold QFileInfo.completeBaseName.
  assert (Hn : contains QString.slash
                 (String.append base (String QString.dot ext)) = false).
  { rewrite contains_append, Hb. simpl. exact He. }
  destruct (path_of_joined dir _ Hd Hn) as [_ F]. rewrite F.
  rewrite split_app_sep, (split_clean _ _ Hdot).
  pose proof (split_nonempty QString.dot base) as Hne.
  pose proof (join_split QString.dot base) as J.
  destruct (QString.split QString.dot base) as [|b bs] eqn:S0; [congruence|].
  destruct bs as [|b' bs].
  - simpl. simpl in J. exact J.
  - change ((b :: b' :: bs) ++ [ext])%list
      with (b :: b' :: (bs ++ [ext]))%list.
    cbv iota.
    change (b :: b' :: (bs ++ [ext]))%list
      with ((b :: b' :: bs) ++ [ext])%list.
    rewrite removelast_snoc. exact J.
Qed.

(** X13.  Next to the originals the output differs from the input in its
    extension only.  For an input [dir/base.ext] (no slash in [base] and
    [ext], no dot in [ext]) and a destination entry that names no
    directory, [GetOutputFileName] returns [dir/base.] followed by the
    extension of the preset; with a preset of the input's own extension
    that is the input file itself, which the dialog hands to the engine as
    output all the same. *)
Theorem output_beside_input (P : Platform) (d : Dialog)
    (dir base ext : string) (preset : TranscoderPreset) :
  dir <> EmptyString ->
  contains QString.slash base = false ->
  contains QString.slash ext = false ->
  contains QString.dot ext = false ->
  isDir P
    (toString
       (QComboBox.itemData (destination d)
          (QComboBox.currentIndex (destination d)))) = false ->
  let input :=
    QFileInfo.mk
      (String.append dir
         (String.append "/" (String.append base (String.append "." ext)))) in
  GetOutputFileName P d input preset
  = String.append dir
      (String.append "/"
         (String.append base (String.append "." (extension_ preset)))) /\
  (extension_ preset = ext ->
   GetOutputFileName P d input preset = QFileInfo.filePath input).
Proof.
  intros Hd Hb He Hdot Hdir input.
  assert (Hn : contains QString.slash
                 (String.append base (String QString.dot ext)) = false).
  { rewrite contains_append, Hb. simpl. exact He. }
  assert (E : GetOutputFileName P d input preset
              = String.append dir
                  (String.append "/"
                     (String.append base
                        (String.append "." (extension_ preset))))).
  { unfold GetOutputFileName. cbn [QFileInfo.filePath]. rewrite Hdir.
    unfold input.
    change (String.append "/" (String.append base (String.append "." ext)))
      with (String QString.slash
              (String.append base (String QString.dot ext))).
    destruct (path_of_joined dir _ Hd Hn) as [Hpath _]. rewrite Hpath.
    now rewrite (completeBaseName_of_joined dir base ext Hd Hb He Hdot). }
  split; [exact E|]. intros Hext. rewrite E, Hext. reflexivity.
Qed.

Lemma output_beside_input_witness :
  GetOutputFileName Sample.platform Sample.fresh
    (QFileInfo.mk "/home/u/a.b.flac") Sample.flac
  = "/home/u/a.b.flac".
Proof.
  destruct (output_beside_input Sample.platform Sample.fresh "/home/u" "a.b"
              "flac" Sample.flac) as (_ & A);
    [discriminate | reflexivity | reflexivity | reflexivity | reflexivity |].
  apply A. reflexivity.
Defined.

(** ** The status text *)

Lemma font_starts color body :
  exists rest, font color body = String "<"%char rest.
Proof. eexists. reflexivity. Qed.

Lemma join_first sep x l :
  (exists rest, x = String "<"%char rest) ->
  QString.join sep (x :: l) <> EmptyString.
Proof. intros [rest ->]. destruct l; discriminate. Qed.

(** X14.  The status text is blank exactly when there is nothing to
    report.  [UpdateStatusText] writes one section per counter that is not
    zero (remaining, finished, failed, in this order), so the text is empty
    if and only if all three counters are zero, as in a dialog that has not
    run yet. *)
Theorem status_text_blank_iff_idle (P : Platform) (d : Dialog) :
  (progress_text (UpdateStatusText P d) = EmptyString <->
   queued_ d = 0 /\ finished_success_ d = 0 /\ finished_failed_ d = 0) /\
  length
    (status_sections P (queued_ d) (finished_success_ d) (finished_failed_ d))
  = ((if Z.eqb (queued_ d) 0%Z then 0 else 1)
     + (if Z.eqb (finished_success_ d) 0%Z then 0 else 1)
     + (if Z.eqb (finished_failed_ d) 0%Z then 0 else 1))%nat.
Proof.
  replace (progress_text (UpdateStatusText P d))
    with (QString.join ", "
            (status_sections P (queued_ d) (finished_success_ d)
               (finished_failed_ d)))
    by now destruct d.
  unfold status_sections.
  destruct (Z.eqb_spec (queued_ d) 0) as [Q|Q];
    destruct (Z.eqb_spec (finished_success_ d) 0) as [S0|S0];
    destruct (Z.eqb_spec (finished_failed_ d) 0) as [F|F];
    (split; [|reflexivity]);
    (split; [intros H | intros (A & B & C); try contradiction]);
    auto;
    exfalso; revert H; cbn [app]; apply join_first, font_starts.
Qed.

Lemma status_text_witness :
  progress_text (UpdateStatusText Sample.platform Sample.fresh) = EmptyString /\
  progress_text (UpdateStatusText Sample.platform Sample.running)
  <> EmptyString.
Proof.
  destruct (status_text_blank_iff_idle Sample.platform Sample.fresh)
    as [[_ A] _].
  destruct (status_text_blank_iff_idle Sample.platform Sample.running)
    as [[B _] _].
  split.
  - apply A. repeat split.
  - intros H. destruct (B H) as (Q & _). vm_compute in Q. discriminate Q.
Defined.
